(** * hadesmem: protection guard, DirectInput device proxy, and the dumper's
      batch loops

    A shallow embedding of

    - [include/memory/hadesmem/detail/protect_guard.hpp] (module [Guard]),
    - [examples/cerberus/direct_input_device_8_w_proxy.cpp] (module [Proxy]),
    - the process and module loops of [examples/dump/main.cpp] (module [Dump]).

    C++ code that throws, asserts and mutates objects is written in a small
    monad over an explicit state: a computation either returns, leaves by an
    exception, or stops the program at a failed assertion.  Collaborators
    whose code lives in other headers ([Protect], [Query], the wrapped COM
    object, the trace sink, the callback lists, ...) are parameters of the
    model, so every theorem holds for whatever they do. *)

From Stdlib Require Import ZArith List String Bool Lia.
Import ListNotations.
Open Scope string_scope.
Open Scope list_scope.
Open Scope Z_scope.

Set Implicit Arguments.

(** ** Exceptions *)

(** [Error what] is [hadesmem::Error{} << ErrorString{what}], which derives
    from [std::exception]; [Foreign] stands for anything thrown that does
    not, so that [catch (std::exception const&)] and [catch (...)] differ. *)
Inductive exn : Type :=
| Error (what : string)
| Foreign (tag : Z).

Definition is_std_exception (e : exn) : bool :=
  match e with
  | Error _ => true
  | Foreign _ => false
  end.

(** [boost::current_exception_diagnostic_information()], as far as the
    model needs it: the text handed to the trace sink. *)
Definition diagnostic_information (e : exn) : string :=
  match e with
  | Error what => what
  | Foreign _ => "unknown exception"
  end.

(** ** Outcomes and the monad *)

Inductive outcome (S A : Type) : Type :=
| Returned (a : A) (s : S)
| Thrown (e : exn) (s : S)
| Aborted (s : S).

Arguments Returned {S A} a s.
Arguments Thrown {S A} e s.
Arguments Aborted {S A} s.

Definition final {S A} (o : outcome S A) : S :=
  match o with
  | Returned _ s => s
  | Thrown _ s => s
  | Aborted s => s
  end.

Definition returns {S A} (o : outcome S A) : bool :=
  match o with
  | Returned _ _ => true
  | _ => false
  end.

Definition M (S A : Type) : Type := S -> outcome S A.

Definition ret {S A} (a : A) : M S A := fun s => Returned a s.

Definition bind {S A B} (m : M S A) (k : A -> M S B) : M S B :=
  fun s =>
    match m s with
    | Returned a s' => k a s'
    | Thrown e s' => Thrown e s'
    | Aborted s' => Aborted s'
    end.

Definition throw {S A} (e : exn) : M S A := fun s => Thrown e s.

Definition get {S} : M S S := fun s => Returned s s.

Definition modify {S} (f : S -> S) : M S unit := fun s => Returned tt (f s).

(** [try { m } catch (...) { h }] *)
Definition try_catch_all {S A} (m : M S A) (h : exn -> M S A) : M S A :=
  fun s =>
    match m s with
    | Thrown e s' => h e s'
    | o => o
    end.

(** [try { m } catch (std::exception const&) { h }] *)
Definition try_catch_std {S A} (m : M S A) (h : exn -> M S A) : M S A :=
  fun s =>
    match m s with
    | Thrown e s' => if is_std_exception e then h e s' else Thrown e s'
    | o => o
    end.

(** [HADESMEM_DETAIL_ASSERT(c)].  The macro comes from
    [hadesmem/detail/assert.hpp]; whether assertions are compiled in is the
    build's choice, hence the flag. *)
Definition HADESMEM_DETAIL_ASSERT {S} (assertions : bool) (c : bool)
  : M S unit :=
  fun s => if assertions && negb c then Aborted s else Returned tt s.

(** Run a computation on one component of the state. *)
Definition zoom {S T A} (proj : S -> T) (inj : T -> S -> S) (m : M T A)
  : M S A :=
  fun s =>
    match m (proj s) with
    | Returned a t => Returned a (inj t s)
    | Thrown e t => Thrown e (inj t s)
    | Aborted t => Aborted (inj t s)
    end.

Declare Scope monad_scope.
Delimit Scope monad_scope with monad.
Notation "x <- m ;; k" := (bind m (fun x => k))
  (at level 61, m at next level, right associativity) : monad_scope.
Notation "m ;;; k" := (bind m (fun _ => k))
  (at level 61, right associativity) : monad_scope.
Open Scope monad_scope.

(** ** Windows constants and types ([windows.h]) *)

Definition DWORD := Z.
Definition PAGE_READWRITE : DWORD := 0x04.
Definition PAGE_EXECUTE_READWRITE : DWORD := 0x40.

Record MEMORY_BASIC_INFORMATION : Type := {
  mbi_BaseAddress : Z;
  mbi_AllocationBase : Z;
  mbi_AllocationProtect : DWORD;
  mbi_RegionSize : Z;
  mbi_State : DWORD;
  mbi_Protect : DWORD;
  mbi_Type : DWORD
}.

(** * The protection guard *)

Module Guard.

Inductive ProtectGuardType : Type := kRead | kWrite.

(** One call of [hadesmem::Protect(process, mbi, protect)]. *)
Record ProtectCall (Process : Type) : Type := {
  call_process : Process;
  call_mbi : MEMORY_BASIC_INFORMATION;
  call_protect : DWORD
}.

(** The collaborators of the guard, declared in [hadesmem/protect.hpp],
    [hadesmem/detail/query_region.hpp], [hadesmem/detail/protect_region.hpp]
    and [hadesmem/detail/trace.hpp].  [E] is whatever state
    they act on (the target's page tables, the debug output, ...). *)
Record Platform (E Process : Type) : Type := {
  Query_impl :
    Process -> Z -> E -> (exn + MEMORY_BASIC_INFORMATION) * E;
  Protect_impl :
    Process -> MEMORY_BASIC_INFORMATION -> DWORD -> E -> (exn + DWORD) * E;
  IsBadProtect : MEMORY_BASIC_INFORMATION -> bool;
  CanRead : MEMORY_BASIC_INFORMATION -> bool;
  CanWrite : MEMORY_BASIC_INFORMATION -> bool;
  trace_impl : string -> E -> E;
  assertions : bool
}.

(** The state outside the guard: the collaborators' state and the list of
    [Protect] calls made so far, oldest first. *)
Record World (E Process : Type) : Type := {
  env : E;
  protect_log : list (ProtectCall Process)
}.

Record ProtectGuard (Process : Type) : Type := {
  process_ : Process;
  type_ : ProtectGuardType;
  can_read_or_write_ : bool;
  old_protect_ : DWORD;
  mbi_ : MEMORY_BASIC_INFORMATION
}.

Definition bad_protection_message : string :=
  "Attempt to access page with a 'bad' protection mask.".

(** The error the spec calls [InvalidProtection]. *)
Definition InvalidProtection : exn := Error bad_protection_message.

Section WithPlatform.

Context {E Process : Type} (P : Platform E Process).

Notation World := (World E Process).
Notation ProtectGuard := (ProtectGuard Process).
Notation ProtectCall := (ProtectCall Process).

(** [Query(process, address)] *)
Definition Query (process : Process) (address : Z)
  : M World MEMORY_BASIC_INFORMATION :=
  fun w =>
    match Query_impl P process address (env w) with
    | (inr mbi, e') => Returned mbi {| env := e'; protect_log := protect_log w |}
    | (inl x, e') => Thrown x {| env := e'; protect_log := protect_log w |}
    end.

(** [Protect(process, mbi, protect)]: the call is recorded, then the
    mutator answers with the previous flags or throws. *)
Definition Protect (process : Process) (mbi : MEMORY_BASIC_INFORMATION)
  (protect : DWORD) : M World DWORD :=
  fun w =>
    let c := {| call_process := process; call_mbi := mbi;
                call_protect := protect |} in
    let log := protect_log w ++ [c] in
    match Protect_impl P process mbi protect (env w) with
    | (inr old, e') => Returned old {| env := e'; protect_log := log |}
    | (inl x, e') => Thrown x {| env := e'; protect_log := log |}
    end.

(** [HADESMEM_DETAIL_TRACE_A(text)] *)
Definition TRACE_A (text : string) : M World unit :=
  modify (fun w => {| env := trace_impl P text (env w);
                      protect_log := protect_log w |}).

(** [ProtectGuard(Process const&, MEMORY_BASIC_INFORMATION const&,
    ProtectGuardType)] *)
Definition ProtectGuard_mbi (process : Process)
  (mbi : MEMORY_BASIC_INFORMATION) (type : ProtectGuardType)
  : M World ProtectGuard :=
  if IsBadProtect P mbi then throw InvalidProtection
  else
    let can :=
      match type with
      | kRead => CanRead P mbi
      | kWrite => CanWrite P mbi
      end in
    if negb can then
      old <- try_catch_all
               (Protect process mbi PAGE_EXECUTE_READWRITE)
               (fun _ => Protect process mbi PAGE_READWRITE) ;;
      ret {| process_ := process; type_ := type; can_read_or_write_ := can;
             old_protect_ := old; mbi_ := mbi |}
    else
      ret {| process_ := process; type_ := type; can_read_or_write_ := can;
             old_protect_ := 0; mbi_ := mbi |}.

(** [ProtectGuard(Process const&, PVOID, ProtectGuardType)] *)
Definition ProtectGuard_address (process : Process) (address : Z)
  (type : ProtectGuardType) : M World ProtectGuard :=
  mbi <- Query process address ;;
  ProtectGuard_mbi process mbi type.

(** Methods run on a guard and the world. *)
Definition in_world {A} (m : M World A) : M (ProtectGuard * World) A :=
  zoom snd (fun w s => (fst s, w)) m.

Definition set_old_protect (v : DWORD) (g : ProtectGuard) : ProtectGuard :=
  {| process_ := process_ g; type_ := type_ g;
     can_read_or_write_ := can_read_or_write_ g;
     old_protect_ := v; mbi_ := mbi_ g |}.

(** [void Restore()] *)
Definition Restore : M (ProtectGuard * World) unit :=
  s <- get ;;
  let g := fst s in
  if old_protect_ g =? 0 then ret tt
  else
    (if negb (can_read_or_write_ g)
     then (_ <- in_world (Protect (process_ g) (mbi_ g) (old_protect_ g)) ;;
           ret tt)
     else ret tt) ;;;
    modify (fun s => (set_old_protect 0 (fst s), snd s)).

(** [void RestoreUnchecked() noexcept] *)
Definition RestoreUnchecked : M (ProtectGuard * World) unit :=
  try_catch_all Restore
    (fun e =>
       in_world (TRACE_A (diagnostic_information e)) ;;;
       HADESMEM_DETAIL_ASSERT (assertions P) false).

(** [~ProtectGuard()] *)
Definition destroy : M (ProtectGuard * World) unit := RestoreUnchecked.

(** [ProtectGuard(ProtectGuard&& other) noexcept]: the state is the moved-from
    guard; the result is the new one. *)
Definition move_construct : M (ProtectGuard * World) ProtectGuard :=
  s <- get ;;
  let other := fst s in
  modify (fun s => (set_old_protect 0 (fst s), snd s)) ;;;
  ret {| process_ := process_ other; type_ := type_ other;
         can_read_or_write_ := can_read_or_write_ other;
         old_protect_ := old_protect_ other; mbi_ := mbi_ other |}.

(** [ProtectGuard& operator=(ProtectGuard&& other) noexcept]: the state holds
    [*this], [other] and the world. *)
Definition move_assign : M (ProtectGuard * ProtectGuard * World) unit :=
  modify (fun s =>
            let '(this, other, w) := s in
            ({| process_ := process_ other; type_ := type_ other;
                can_read_or_write_ := can_read_or_write_ other;
                old_protect_ := old_protect_ other; mbi_ := mbi_ other |},
             set_old_protect 0 other, w)).

(** The same operator when [other] is [*this]: one object, whose fields are
    assigned to themselves before [old_protect_] is cleared. *)
Definition move_assign_self : M (ProtectGuard * World) unit :=
  modify (fun s =>
            let this := fst s in
            (set_old_protect 0
               {| process_ := process_ this; type_ := type_ this;
                  can_read_or_write_ := can_read_or_write_ this;
                  old_protect_ := old_protect_ this; mbi_ := mbi_ this |},
             snd s)).

(** The [Protect] call by which [g] puts back the flags it saved. *)
Definition restore_call (g : ProtectGuard) : ProtectCall :=
  {| call_process := process_ g; call_mbi := mbi_ g;
     call_protect := old_protect_ g |}.

(** The value [can_read_or_write_] is given in the constructor. *)
Definition already_satisfied (type : ProtectGuardType)
  (mbi : MEMORY_BASIC_INFORMATION) : bool :=
  match type with
  | kRead => CanRead P mbi
  | kWrite => CanWrite P mbi
  end.

(** ** What is done to a pair of guards after a move assignment *)


Inductive later_use : Type :=
| UseRestore (on_target : bool)
| UseDestroy (on_target : bool).

Definition on_target_guard {A} (m : M (ProtectGuard * World) A)
  : M (ProtectGuard * ProtectGuard * World) A :=
  zoom (fun s => (fst (fst s), snd s))
       (fun t s => (fst t, snd (fst s), snd t)) m.

Definition on_source_guard {A} (m : M (ProtectGuard * World) A)
  : M (ProtectGuard * ProtectGuard * World) A :=
  zoom (fun s => (snd (fst s), snd s))
       (fun t s => (fst (fst s), fst t, snd t)) m.

Definition use (u : later_use) : M (ProtectGuard * ProtectGuard * World) unit :=
  match u with
  | UseRestore true => on_target_guard Restore
  | UseRestore false => on_source_guard Restore
  | UseDestroy true => on_target_guard destroy
  | UseDestroy false => on_source_guard destroy
  end.

(** The caller goes on after a [Restore] that threw. *)
Fixpoint uses (us : list later_use)
  : M (ProtectGuard * ProtectGuard * World) unit :=
  match us with
  | [] => ret tt
  | u :: us' => try_catch_all (use u) (fun _ => ret tt) ;;; uses us'
  end.

(** A guard that found the region accessible holds no saved flags. *)
Definition well_formed (g : ProtectGuard) : Prop :=
  can_read_or_write_ g = true -> old_protect_ g = 0.

End WithPlatform.

(** ** Sample platforms *)

Definition PAGE_NOACCESS : DWORD := 0x01.
Definition PAGE_READONLY : DWORD := 0x02.
Definition PAGE_GUARD : DWORD := 0x100.

(** How the sample mutator answers. *)
Inductive policy : Type := Grants | RefusesExecute | RefusesAll.

Definition access_denied : exn := Error "VirtualProtectEx failed.".

(** A mutator for tests: it answers by [pol] and, when it grants the
    request, hands back the flags of the snapshot.  The classification is a
    plain reading of the flag bits. *)
Definition sample_platform (pol : policy) (asserts : bool)
  : Platform unit Z :=
  {| Query_impl := fun _ _ e => (inl (Error "VirtualQueryEx failed."), e);
     Protect_impl := fun _ mbi protect e =>
       match pol with
       | Grants => (inr (mbi_Protect mbi), e)
       | RefusesExecute =>
           if protect =? PAGE_EXECUTE_READWRITE then (inl access_denied, e)
           else (inr (mbi_Protect mbi), e)
       | RefusesAll => (inl access_denied, e)
       end;
     IsBadProtect := fun mbi =>
       negb (Z.land (mbi_Protect mbi) (Z.lor PAGE_GUARD PAGE_NOACCESS) =? 0);
     CanRead := fun mbi =>
       negb (Z.land (mbi_Protect mbi)
               (Z.lor PAGE_READONLY
                  (Z.lor PAGE_READWRITE PAGE_EXECUTE_READWRITE)) =? 0);
     CanWrite := fun mbi =>
       negb (Z.land (mbi_Protect mbi)
               (Z.lor PAGE_READWRITE PAGE_EXECUTE_READWRITE) =? 0);
     trace_impl := fun _ e => e;
     assertions := asserts |}.

Definition sample_region (protect : DWORD) : MEMORY_BASIC_INFORMATION :=
  {| mbi_BaseAddress := 0x10000; mbi_AllocationBase := 0x10000;
     mbi_AllocationProtect := protect; mbi_RegionSize := 0x1000;
     mbi_State := 0x1000; mbi_Protect := protect; mbi_Type := 0x20000 |}.

Definition empty_world : World unit Z :=
  {| env := tt; protect_log := [] |}.

(** A guard on process 7 that has changed a read-only page and holds its
    previous flags. *)
Definition pending_guard : ProtectGuard Z :=
  {| process_ := 7; type_ := kWrite; can_read_or_write_ := false;
     old_protect_ := PAGE_READONLY; mbi_ := sample_region PAGE_READONLY |}.

(** A guard on process 7 that found its page writable. *)
Definition idle_guard : ProtectGuard Z :=
  {| process_ := 7; type_ := kWrite; can_read_or_write_ := true;
     old_protect_ := 0; mbi_ := sample_region PAGE_READWRITE |}.

End Guard.

(** * The DirectInput device proxy *)

Module Proxy.

Definition HRESULT := Z.
Definition ULONG := Z.

(** [SUCCEEDED(hr)] is [hr >= 0] on the signed 32-bit [HRESULT]. *)
Definition SUCCEEDED (hr : HRESULT) : bool := 0 <=? hr.

Definition S_OK : HRESULT := 0.

(** [E_NOINTERFACE] is [0x80004002], read as a signed 32-bit value. *)
Definition E_NOINTERFACE : HRESULT := 0x80004002 - 0x100000000.

(** The methods of [IDirectInputDevice8W]. *)
Inductive method : Type :=
| mQueryInterface | mAddRef | mRelease
| mGetCapabilities | mEnumObjects | mGetProperty | mSetProperty
| mAcquire | mUnacquire | mGetDeviceState | mGetDeviceData
| mSetDataFormat | mSetEventNotification | mSetCooperativeLevel
| mGetObjectInfo | mGetDeviceInfo | mRunControlPanel | mInitialize
| mCreateEffect | mEnumEffects | mGetEffectInfo | mGetForceFeedbackState
| mSendForceFeedbackCommand | mEnumCreatedEffectObjects | mEscape | mPoll
| mSendDeviceData | mEnumEffectsInFile | mWriteEffectToFile
| mBuildActionMap | mSetActionMap | mGetImageInfo.

(** The proxy adds nothing to these: each is [return device_->m(args)]. *)
Definition forwarded_verbatim (m : method) : bool :=
  match m with
  | mQueryInterface | mAddRef | mRelease | mGetDeviceState
  | mGetDeviceData => false
  | _ => true
  end.

(** What the proxy does not own: the thread's last-error value and the
    state [D] of the wrapped object, of the buffers it fills and of
    everything else the collaborators touch. *)
Record Env (D : Type) : Type := {
  last_error : DWORD;
  ext : D
}.

Definition set_last_error {D} (v : DWORD) (e : Env D) : Env D :=
  {| last_error := v; ext := ext e |}.

(** The wrapped object [device_], an [IDirectInputDevice8W].  Pointers and
    handles are addresses.  [dev_QueryInterface riid obj] receives the
    caller's [*obj] and answers with the result and the new [*obj]. *)
Record Device (D : Type) : Type := {
  dev_QueryInterface : Z -> Z -> Env D -> (HRESULT * Z) * Env D;
  dev_AddRef : Env D -> ULONG * Env D;
  dev_Release : Env D -> ULONG * Env D;
  dev_GetDeviceState : DWORD -> Z -> Env D -> HRESULT * Env D;
  dev_GetDeviceData : DWORD -> Z -> Z -> DWORD -> Env D -> HRESULT * Env D;
  dev_call : method -> list Z -> Env D -> HRESULT * Env D
}.

(** What the proxy calls besides the wrapped object: the trace macros of
    [hadesmem/detail/trace.hpp], the callback lists of [direct_input.hpp],
    [Release] on a foreign interface, and the assertion switch. *)
Record Hooks (D : Type) : Type := {
  trace_impl : string -> Env D -> Env D;
  trace_noisy_impl : string -> list Z -> Env D -> Env D;
  OnGetDeviceState_Run : DWORD -> Z -> HRESULT -> Env D -> HRESULT * Env D;
  OnGetDeviceData_Run :
    DWORD -> Z -> Z -> DWORD -> HRESULT -> Z -> bool -> Env D ->
    HRESULT * Env D;
  unknown_Release : Z -> Env D -> ULONG * Env D;
  assertions : bool
}.

(** The members the methods use, [self] for the value of [this], and
    [deleted] for whether [delete this] has run.  [refs_] is declared in
    [direct_input_device_8_w_proxy.hpp] as a signed 64-bit count; the model
    counts in [Z]. *)
Record DirectInputDevice8WProxy : Type := {
  self : Z;
  refs_ : Z;
  device_ : Z;
  deleted : bool
}.

(** What a call does, in order.  [EvDevice m r e]: [device_->m(...)]
    returned [r], and the last-error value was [e] at that moment. *)
Inductive event : Type :=
| EvRefs (before after : Z)
| EvCleanup
| EvDevice (m : method) (r : Z) (last_error_after : DWORD)
| EvUnknownRelease (obj : Z)
| EvCallbacks (m : method)
| EvDelete.

Record State (D : Type) : Type := {
  proxy : DirectInputDevice8WProxy;
  env : Env D;
  log : list event
}.

Section WithDevice.

Context {D : Type} (dev : Device D) (H : Hooks D).

Notation State := (State D).

Definition on_env (f : Env D -> Env D) : M State unit :=
  modify (fun s => {| proxy := proxy s; env := f (env s); log := log s |}).

Definition emit (ev : event) : M State unit :=
  modify (fun s => {| proxy := proxy s; env := env s;
                      log := log s ++ [ev] |}).

(** Run a collaborator on the environment and hand back its result. *)
Definition call_env {A} (f : Env D -> A * Env D) : M State A :=
  fun s =>
    let '(a, e') := f (env s) in
    Returned a {| proxy := proxy s; env := e'; log := log s |}.

Definition GetLastError : M State DWORD :=
  fun s => Returned (last_error (env s)) s.

Definition SetLastError (v : DWORD) : M State unit :=
  on_env (set_last_error v).

(** Modelled from the spec: [hadesmem/detail/last_error_preserver.hpp] is
    not among the sources.  The spec has the proxy snapshot the thread-local
    error state before delegating and restore it after; with the calls the
    proxy makes, that is: the constructor and [Update] take the snapshot,
    [Revert] and the destructor write it back.  The snapshot is the value
    these functions pass along. *)
Definition LastErrorPreserver_ctor : M State DWORD := GetLastError.
Definition LastErrorPreserver_Revert (saved : DWORD) : M State unit :=
  SetLastError saved.
Definition LastErrorPreserver_Update : M State DWORD := GetLastError.
Definition LastErrorPreserver_dtor (saved : DWORD) : M State unit :=
  SetLastError saved.

Definition HADESMEM_DETAIL_TRACE_A (text : string) : M State unit :=
  on_env (trace_impl H text).

Definition HADESMEM_DETAIL_TRACE_NOISY_A (text : string) : M State unit :=
  on_env (trace_noisy_impl H text []).

Definition HADESMEM_DETAIL_TRACE_NOISY_FORMAT_A (format : string)
  (args : list Z) : M State unit :=
  on_env (trace_noisy_impl H format args).

(** [device_->m(...)]: run the wrapped object's method, then note what it
    returned and the last-error value it left. *)
Definition delegate {A} (m : method) (code : A -> Z)
  (f : Env D -> A * Env D) : M State A :=
  a <- call_env f ;;
  e <- GetLastError ;;
  emit (EvDevice m (code a) e) ;;;
  ret a.

Definition set_refs (v : Z) (p : DirectInputDevice8WProxy)
  : DirectInputDevice8WProxy :=
  {| self := self p; refs_ := v; device_ := device_ p;
     deleted := deleted p |}.

(** [refs_++] and [refs_--] *)
Definition refs_add (d : Z) : M State unit :=
  s <- get ;;
  let r := refs_ (proxy s) in
  modify (fun s => {| proxy := set_refs (r + d) (proxy s); env := env s;
                      log := log s |}) ;;;
  emit (EvRefs r (r + d)).

Definition mark_deleted (p : DirectInputDevice8WProxy)
  : DirectInputDevice8WProxy :=
  {| self := self p; refs_ := refs_ p; device_ := device_ p;
     deleted := true |}.

(** [delete this] *)
Definition delete_this : M State unit :=
  modify (fun s => {| proxy := mark_deleted (proxy s);
                      env := env s; log := log s |}) ;;;
  emit EvDelete.

(** [void Cleanup()] *)
Definition Cleanup : M State unit :=
  emit EvCleanup ;;;
  HADESMEM_DETAIL_TRACE_A "Called.".

(** [HRESULT QueryInterface(REFIID riid, LPVOID* obj)]; the result carries
    the final [*obj]. *)
Definition QueryInterface (riid : Z) (obj : Z) : M State (HRESULT * Z) :=
  saved <- LastErrorPreserver_ctor ;;
  LastErrorPreserver_Revert saved ;;;
  r <- delegate mQueryInterface fst (dev_QueryInterface dev riid obj) ;;
  saved <- LastErrorPreserver_Update ;;
  let '(hr, obj) := r in
  if SUCCEEDED hr then
    HADESMEM_DETAIL_TRACE_NOISY_A "Succeeded." ;;;
    s <- get ;;
    if obj =? device_ (proxy s) then
      refs_add 1 ;;;
      LastErrorPreserver_dtor saved ;;;
      ret (hr, self (proxy s))
    else
      HADESMEM_DETAIL_TRACE_A "WARNING! Unhandled interface." ;;;
      HADESMEM_DETAIL_ASSERT (assertions H) false ;;;
      _ <- call_env (unknown_Release H obj) ;;
      emit (EvUnknownRelease obj) ;;;
      LastErrorPreserver_dtor saved ;;;
      ret (E_NOINTERFACE, obj)
  else
    HADESMEM_DETAIL_TRACE_NOISY_A "Failed." ;;;
    LastErrorPreserver_dtor saved ;;;
    ret (hr, obj).

Definition refs_format : string :=
  "Internal refs: [%lu]. External refs: [%lld].".

(** [ULONG AddRef()] *)
Definition AddRef : M State ULONG :=
  refs_add 1 ;;;
  r <- delegate mAddRef id (dev_AddRef dev) ;;
  s <- get ;;
  HADESMEM_DETAIL_TRACE_NOISY_FORMAT_A refs_format [r; refs_ (proxy s)] ;;;
  ret r.

(** [ULONG Release()] *)
Definition Release : M State ULONG :=
  saved <- LastErrorPreserver_ctor ;;
  refs_add (-1) ;;;
  s <- get ;;
  HADESMEM_DETAIL_ASSERT (assertions H) (0 <=? refs_ (proxy s)) ;;;
  (if refs_ (proxy s) =? 0 then Cleanup else ret tt) ;;;
  LastErrorPreserver_Revert saved ;;;
  r <- delegate mRelease id (dev_Release dev) ;;
  saved <- LastErrorPreserver_Update ;;
  s <- get ;;
  HADESMEM_DETAIL_TRACE_NOISY_FORMAT_A refs_format [r; refs_ (proxy s)] ;;;
  (if r =? 0 then delete_this else ret tt) ;;;
  LastErrorPreserver_dtor saved ;;;
  ret r.

(** [HRESULT GetDeviceState(DWORD len_data, LPVOID data)] *)
Definition GetDeviceState (len_data : DWORD) (data : Z) : M State HRESULT :=
  saved <- LastErrorPreserver_ctor ;;
  LastErrorPreserver_Revert saved ;;;
  r <- delegate mGetDeviceState id (dev_GetDeviceState dev len_data data) ;;
  saved <- LastErrorPreserver_Update ;;
  emit (EvCallbacks mGetDeviceState) ;;;
  r <- call_env (OnGetDeviceState_Run H len_data data r) ;;
  LastErrorPreserver_dtor saved ;;;
  ret r.

(** [HRESULT GetDeviceData(DWORD len_object_data, LPDIDEVICEOBJECTDATA rgdod,
    LPDWORD in_out, DWORD flags)] *)
Definition GetDeviceData (len_object_data : DWORD) (rgdod in_out : Z)
  (flags : DWORD) : M State HRESULT :=
  saved <- LastErrorPreserver_ctor ;;
  LastErrorPreserver_Revert saved ;;;
  r <- delegate mGetDeviceData id
         (dev_GetDeviceData dev len_object_data rgdod in_out flags) ;;
  saved <- LastErrorPreserver_Update ;;
  emit (EvCallbacks mGetDeviceData) ;;;
  s <- get ;;
  r <- call_env (OnGetDeviceData_Run H len_object_data rgdod in_out flags r
                   (device_ (proxy s)) false) ;;
  LastErrorPreserver_dtor saved ;;;
  ret r.

(** [GetCapabilities], [EnumObjects], ..., [GetImageInfo]: the methods with
    [forwarded_verbatim m = true]. *)
Definition forward (m : method) (args : list Z) : M State HRESULT :=
  delegate m id (dev_call dev m args).

(** ** Clients *)

(** A call a client makes through the proxy's interface. *)
Inductive call : Type :=
| CallQueryInterface (riid obj : Z)
| CallAddRef
| CallRelease
| CallGetDeviceState (len_data : DWORD) (data : Z)
| CallGetDeviceData (len_object_data : DWORD) (rgdod in_out : Z)
    (flags : DWORD)
| CallOther (m : method) (args : list Z).

Definition perform (c : call) : M State unit :=
  match c with
  | CallQueryInterface riid obj => _ <- QueryInterface riid obj ;; ret tt
  | CallAddRef => _ <- AddRef ;; ret tt
  | CallRelease => _ <- Release ;; ret tt
  | CallGetDeviceState l d => _ <- GetDeviceState l d ;; ret tt
  | CallGetDeviceData l r i f => _ <- GetDeviceData l r i f ;; ret tt
  | CallOther m args => _ <- forward m args ;; ret tt
  end.

(** A client's calls, one after the other.  Using the proxy after
    [delete this] is undefined, so the run ends there. *)
Fixpoint run (cs : list call) : M State unit :=
  match cs with
  | [] => ret tt
  | c :: cs' =>
      s <- get ;;
      if deleted (proxy s) then ret tt
      else perform c ;;; run cs'
  end.

(** Whether the client adds references only while it holds one: no
    [AddRef] or [QueryInterface] is made with [refs_ <= 0]. *)
Definition adds_reference (c : call) : bool :=
  match c with
  | CallQueryInterface _ _ | CallAddRef => true
  | _ => false
  end.

Fixpoint holds_reference_when_adding (cs : list call) (s : State) : bool :=
  match cs with
  | [] => true
  | c :: cs' =>
      if deleted (proxy s) then true
      else
        (negb (adds_reference c) || (0 <? refs_ (proxy s))) &&
        match perform c s with
        | Returned _ s' => holds_reference_when_adding cs' s'
        | _ => true
        end
  end.

(** What a call leaves behind when it is made on the wrapped object
    directly. *)
Definition device_alone (c : call) (e : Env D) : Env D :=
  match c with
  | CallQueryInterface riid obj => snd (dev_QueryInterface dev riid obj e)
  | CallAddRef => snd (dev_AddRef dev e)
  | CallRelease => snd (dev_Release dev e)
  | CallGetDeviceState l d => snd (dev_GetDeviceState dev l d e)
  | CallGetDeviceData l r i f => snd (dev_GetDeviceData dev l r i f e)
  | CallOther m args => snd (dev_call dev m args e)
  end.

(** Hooks that only observe: the trace sinks and the callback lists may
    change the last-error value and nothing else of the environment. *)
Definition passive : Prop :=
  (forall text e, ext (trace_impl H text e) = ext e) /\
  (forall text args e, ext (trace_noisy_impl H text args e) = ext e) /\
  (forall l d r e, ext (snd (OnGetDeviceState_Run H l d r e)) = ext e) /\
  (forall l r i f hr dv b e,
      ext (snd (OnGetDeviceData_Run H l r i f hr dv b e)) = ext e).

(** The calls that touch the reference count. *)
Definition counts_references (c : call) : bool :=
  match c with
  | CallQueryInterface _ _ | CallAddRef | CallRelease => true
  | _ => false
  end.

End WithDevice.

(** ** Reading the log *)

Definition is_zero_transition (ev : event) : bool :=
  match ev with
  | EvRefs before after => negb (before =? 0) && (after =? 0)
  | _ => false
  end.

(** How often [refs_] went from a non-zero value to zero. *)
Definition zero_transitions (l : list event) : nat :=
  List.length (filter is_zero_transition l).

(** The zero transitions seen so far, plus the one still to come while the
    count is positive. *)
Definition zero_budget {D} (s : State D) : nat :=
  (zero_transitions (log s) +
   if (0 <? refs_ (proxy s))%Z then 1 else 0)%nat.

Definition is_unknown_release (obj : Z) (ev : event) : bool :=
  match ev with
  | EvUnknownRelease o => o =? obj
  | _ => false
  end.

(** How often [Release] was called on the foreign object [obj]. *)
Definition releases_of (obj : Z) (l : list event) : nat :=
  List.length (filter (is_unknown_release obj) l).

(** The last-error value right after the latest call into the wrapped
    object. *)
Fixpoint last_delegation (l : list event) : option DWORD :=
  match l with
  | [] => None
  | ev :: l' =>
      match last_delegation l' with
      | Some e => Some e
      | None =>
          match ev with
          | EvDevice _ _ e => Some e
          | _ => None
          end
      end
  end.

(** ** Counting the client's references *)

(** What [AddRef] and [Release] do to [refs_]: [refs_++] and [refs_--].
    What [QueryInterface] does depends on the wrapped object's answer. *)
Definition refs_delta (c : call) : Z :=
  match c with
  | CallAddRef => 1
  | CallRelease => -1
  | _ => 0
  end.

Definition is_QueryInterface (c : call) : bool :=
  match c with
  | CallQueryInterface _ _ => true
  | _ => false
  end.

(** The references a list of calls takes, less those it gives back. *)
Definition balance (cs : list call) : Z :=
  fold_right (fun c n => refs_delta c + n) 0 cs.

(** ** A sample wrapped object and sample hooks *)

Definition IID_IDirectInputDevice8W : Z := 1.
Definition IID_IDirectInputEffect : Z := 2.

(** A wrapped object at address [at_]: [ext] is its own reference count.  It
    answers [IID_IDirectInputDevice8W] with itself, [IID_IDirectInputEffect]
    with another object at [other], and leaves the last-error value
    alone. *)
Definition counting_device (at_ other : Z) : Device Z :=
  let bump d e := {| last_error := last_error e; ext := ext e + d |} in
  {| dev_QueryInterface := fun riid obj e =>
       if riid =? IID_IDirectInputDevice8W then ((S_OK, at_), bump 1 e)
       else if riid =? IID_IDirectInputEffect then ((S_OK, other), e)
       else ((E_NOINTERFACE, 0), e);
     dev_AddRef := fun e => (ext e + 1, bump 1 e);
     dev_Release := fun e => (ext e - 1, bump (-1) e);
     dev_GetDeviceState := fun _ _ e => (S_OK, e);
     dev_GetDeviceData := fun _ _ _ _ e => (S_OK, e);
     dev_call := fun _ _ e => (S_OK, e) |}.

(** Hooks whose trace sink and callbacks overwrite the last-error value
    with [v], as a call to [OutputDebugString] can. *)
Definition clobbering_hooks (v : DWORD) (asserts : bool) : Hooks Z :=
  {| trace_impl := fun _ e => set_last_error v e;
     trace_noisy_impl := fun _ _ e => set_last_error v e;
     OnGetDeviceState_Run := fun _ _ r e => (r, set_last_error v e);
     OnGetDeviceData_Run := fun _ _ _ _ r _ _ e => (r, set_last_error v e);
     unknown_Release := fun _ e => (0, set_last_error v e);
     assertions := asserts |}.

(** A proxy at [0x2000] around the object at [0x1000], holding [refs]
    external references while the object counts [internal]; the last-error
    value is 5. *)
Definition sample_state (refs internal : Z) : State Z :=
  {| proxy := {| self := 0x2000; refs_ := refs; device_ := 0x1000;
                 deleted := false |};
     env := {| last_error := 5; ext := internal |};
     log := [] |}.

Definition sample_device : Device Z := counting_device 0x1000 0x3000.

End Proxy.

(** * The dumper's loops over processes and modules *)

Module Dump.

(** What the [Write...] helpers of [print.hpp] put on the output stream. *)
Inductive output : Type :=
| Newline
| Normal (text : string) (tabs : Z)
| NamedHex (name : string) (value : Z) (tabs : Z)
| NamedNormal (name : string) (value : string) (tabs : Z).

(** The parts of a PE file [DumpPeFile] hands to the other translation
    units, in the order of the calls. *)
Inductive pe_part : Type :=
| Headers | Sections | Overlay | Tls | Exports | Imports | BoundImports
| Relocations | Strings | Warnings.

(** The calls into code outside [main.cpp] that can fail. *)
Inductive step : Type :=
| StThreadList (pid : Z)
| StOpenProcess (pid : Z)
| StGetPath (pid : Z)
| StGetPathNative (pid : Z)
| StIsWoW64 (pid : Z)
| StModuleList (pid : Z)
| StPeFile (handle : Z)
| StDosHeader (handle : Z)
| StNtHeaders (handle : Z)
| StDumpPart (part : pe_part) (handle : Z)
| StRegionList (pid : Z)
| StDumpMemory (pid : Z).

Record ThreadEntry : Type := {
  thread_usage : Z; thread_id : Z; thread_owner_id : Z;
  thread_base_priority : Z; thread_delta_priority : Z; thread_flags : Z
}.

Record Region : Type := {
  region_base : Z; region_alloc_base : Z; region_alloc_protect : Z;
  region_size : Z; region_state : Z; region_protect : Z; region_type : Z
}.

(** A module of the target, with what each fallible call on it does:
    [None] for success, [Some e] for throwing [e]. *)
Record Module : Type := {
  module_handle : Z;
  module_size : Z;
  module_name : string;
  module_path : string;
  pe_file_ctor : option exn;
  dos_header_ctor : option exn;
  nt_headers_ctor : option exn;
  pe_is64 : bool;
  pe_size : Z;
  dump_part : pe_part -> option exn;
  has_new_bound_imports : bool
}.

(** A process entry, with what each fallible call on it does.  A list that
    is enumerated lazily can throw after the items it has produced. *)
Record ProcessEntry : Type := {
  entry_id : Z;
  entry_threads : Z;
  entry_parent_id : Z;
  entry_priority : Z;
  entry_name : string;
  thread_list : list ThreadEntry;
  thread_list_fails : option exn;
  process_ctor : option exn;
  get_path : exn + string;
  get_path_native : exn + string;
  is_wow64 : exn + bool;
  module_list : list Module;
  module_list_fails : option exn;
  region_list : list Region;
  region_list_fails : option exn;
  dump_memory : option exn
}.

(** [wcout] and, in order, the fallible calls made so far. *)
Record State : Type := {
  wcout : list output;
  steps : list step
}.

Section WithGlobals.

(** [g_quiet] and [g_strings] *)
Variables (g_quiet g_strings : bool).

(** [GetOutputStreamW()] is [wcout], or a stream that drops what it is
    given when [g_quiet] is set. *)
Definition write (o : output) : M State unit :=
  modify (fun s => {| wcout := if g_quiet then wcout s else wcout s ++ [o];
                      steps := steps s |}).

Definition WriteNewline : M State unit := write Newline.
Definition WriteNormal (text : string) (tabs : Z) : M State unit :=
  write (Normal text tabs).
Definition WriteNamedHex (name : string) (value tabs : Z) : M State unit :=
  write (NamedHex name value tabs).
Definition WriteNamedNormal (name value : string) (tabs : Z)
  : M State unit :=
  write (NamedNormal name value tabs).

(** A fallible call: it is recorded, then it returns or throws. *)
Definition attempt (st : step) (r : option exn) : M State unit :=
  modify (fun s => {| wcout := wcout s; steps := steps s ++ [st] |}) ;;;
  match r with
  | None => ret tt
  | Some e => throw e
  end.

Definition attempt_value {A} (st : step) (r : exn + A) : M State A :=
  modify (fun s => {| wcout := wcout s; steps := steps s ++ [st] |}) ;;;
  match r with
  | inr a => ret a
  | inl e => throw e
  end.

(** A range-based [for] over a list that may throw once it is exhausted. *)
Fixpoint for_each {A} (body : A -> M State unit) (l : list A)
  (at_end : M State unit) : M State unit :=
  match l with
  | [] => at_end
  | a :: l' => body a ;;; for_each body l' at_end
  end.

Definition k1MB : Z := Z.shiftl 1 20.
Definition k100MB : Z := (k1MB * 100) mod 2 ^ 32.

(** [void DumpPeFile(Process const&, PeFile const&, std::wstring const&)].
    [ClearWarnForCurrentFile] only resets a flag. *)
Definition DumpPeFile (m : Module) : M State unit :=
  let part p := attempt (StDumpPart p (module_handle m)) (dump_part m p) in
  WriteNewline ;;;
  WriteNormal (if pe_is64 m then "64-Bit File: Yes" else "64-Bit File: No")
    1 ;;;
  (if k100MB <? pe_size m
   then WriteNewline ;;; WriteNormal "WARNING! File is over 100MB." 0
   else ret tt) ;;;
  part Headers ;;;
  part Sections ;;;
  part Overlay ;;;
  part Tls ;;;
  part Exports ;;;
  part Imports ;;;
  part BoundImports ;;;
  part Relocations ;;;
  (if negb g_quiet && g_strings then part Strings else ret tt) ;;;
  part Warnings.

(** The body of the loop of [DumpModules]; [continue] ends it early. *)
Definition DumpModules_body (m : Module) : M State unit :=
  WriteNewline ;;;
  WriteNamedHex "Handle" (module_handle m) 1 ;;;
  WriteNamedHex "Size" (module_size m) 1 ;;;
  WriteNamedNormal "Name" (module_name m) 1 ;;;
  WriteNamedNormal "Path" (module_path m) 1 ;;;
  attempt (StPeFile (module_handle m)) (pe_file_ctor m) ;;;
  valid <- try_catch_std
             (attempt (StDosHeader (module_handle m)) (dos_header_ctor m) ;;;
              attempt (StNtHeaders (module_handle m)) (nt_headers_ctor m) ;;;
              ret true)
             (fun _ =>
                WriteNewline ;;;
                WriteNormal "WARNING! Not a valid PE file or architecture."
                  1 ;;;
                ret false) ;;
  if valid then DumpPeFile m else ret tt.

(** [void DumpModules(Process const&)] *)
Definition DumpModules (p : ProcessEntry) : M State unit :=
  WriteNewline ;;;
  WriteNormal "Modules:" 0 ;;;
  for_each DumpModules_body (module_list p)
    (attempt (StModuleList (entry_id p)) (module_list_fails p)).

(** [void DumpRegions(Process const&)] *)
Definition DumpRegions (p : ProcessEntry) : M State unit :=
  WriteNewline ;;;
  WriteNormal "Regions:" 0 ;;;
  for_each
    (fun r =>
       WriteNewline ;;;
       WriteNamedHex "Base" (region_base r) 1 ;;;
       WriteNamedHex "Allocation Base" (region_alloc_base r) 1 ;;;
       WriteNamedHex "Allocation Protect" (region_alloc_protect r) 1 ;;;
       WriteNamedHex "Size" (region_size r) 1 ;;;
       WriteNamedHex "State" (region_state r) 1 ;;;
       WriteNamedHex "Protect" (region_protect r) 1 ;;;
       WriteNamedHex "Type" (region_type r) 1)
    (region_list p)
    (attempt (StRegionList (entry_id p)) (region_list_fails p)).

(** [void DumpThreadEntry(ThreadEntry const&)] *)
Definition DumpThreadEntry (t : ThreadEntry) : M State unit :=
  WriteNewline ;;;
  WriteNamedHex "Usage" (thread_usage t) 1 ;;;
  WriteNamedHex "ID" (thread_id t) 1 ;;;
  WriteNamedHex "Owner ID" (thread_owner_id t) 1 ;;;
  WriteNamedHex "Base Priority" (thread_base_priority t) 1 ;;;
  WriteNamedHex "Delta Priority" (thread_delta_priority t) 1 ;;;
  WriteNamedHex "Flags" (thread_flags t) 1.

(** [void DumpThreads(DWORD pid)], for the threads of one process entry. *)
Definition DumpThreads (p : ProcessEntry) : M State unit :=
  WriteNewline ;;;
  WriteNormal "Threads:" 0 ;;;
  for_each DumpThreadEntry (thread_list p)
    (attempt (StThreadList (entry_id p)) (thread_list_fails p)).

(** [void DumpProcessEntry(ProcessEntry const&, bool memonly)] *)
Definition DumpProcessEntry (memonly : bool) (p : ProcessEntry)
  : M State unit :=
  WriteNewline ;;;
  WriteNamedHex "ID" (entry_id p) 0 ;;;
  WriteNamedHex "Threads" (entry_threads p) 0 ;;;
  WriteNamedHex "Parent" (entry_parent_id p) 0 ;;;
  WriteNamedHex "Priority" (entry_priority p) 0 ;;;
  WriteNamedNormal "Name" (entry_name p) 0 ;;;
  (if negb memonly then DumpThreads p else ret tt) ;;;
  opened <- try_catch_std
              (attempt (StOpenProcess (entry_id p)) (process_ctor p) ;;;
               ret true)
              (fun _ =>
                 WriteNewline ;;;
                 WriteNormal "Could not open process for further inspection."
                   0 ;;;
                 WriteNewline ;;;
                 ret false) ;;
  if opened then
    (if negb memonly then
       try_catch_std
         (WriteNewline ;;;
          path <- attempt_value (StGetPath (entry_id p)) (get_path p) ;;
          WriteNormal (String.append "Path (Win32): " path) 0)
         (fun _ =>
            WriteNewline ;;;
            WriteNormal "WARNING! Could not get Win32 path to process." 0) ;;;
       path <- attempt_value (StGetPathNative (entry_id p))
                 (get_path_native p) ;;
       WriteNormal (String.append "Path (NT): " path) 0 ;;;
       wow <- attempt_value (StIsWoW64 (entry_id p)) (is_wow64 p) ;;
       WriteNormal (String.append "WoW64: " (if wow then "Yes" else "No"))
         0 ;;;
       DumpModules p ;;;
       DumpRegions p
     else ret tt) ;;;
    attempt (StDumpMemory (entry_id p)) (dump_memory p)
  else ret tt.

(** [void DumpProcesses(bool memonly)]; the [ProcessList] is the argument. *)
Definition DumpProcesses (memonly : bool) (processes : list ProcessEntry)
  : M State unit :=
  WriteNewline ;;;
  WriteNormal "Processes:" 0 ;;;
  for_each (DumpProcessEntry memonly) processes (ret tt).

End WithGlobals.

(** ** Reading the steps *)

Definition opened_pid (st : step) : option Z :=
  match st with
  | StOpenProcess pid => Some pid
  | _ => None
  end.


Fixpoint pick {A B} (f : A -> option B) (l : list A) : list B :=
  match l with
  | [] => []
  | a :: l' =>
      match f a with
      | Some b => b :: pick f l'
      | None => pick f l'
      end
  end.

(** The process entries whose inspection was begun, in order. *)
Definition processes_tried (s : State) : list Z := pick opened_pid (steps s).



















(** [m] takes every state to one that [R] relates to it, however [m]
    ends. *)
Definition relates {A} (R : State -> State -> Prop) (m : M State A) : Prop :=
  forall s, R s (final (m s)).

(** [s'] has the steps of [s] and then only steps that [allowed] admits. *)
Definition extends_steps (allowed : step -> bool) (s s' : State) : Prop :=
  exists delta,
    steps s' = steps s ++ delta /\ forallb allowed delta = true.

(** The calls made on an opened process outside [--memonly]; strings are
    dumped only with [--strings] and without [--quiet]. *)
Definition inner_step (g_quiet g_strings : bool) (st : step) : bool :=
  match st with
  | StOpenProcess _ | StDumpMemory _ => false
  | StDumpPart Strings _ => negb g_quiet && g_strings
  | _ => true
  end.

(** The calls [DumpProcesses] can make under the given flags. *)
Definition may_attempt (g_quiet g_strings memonly : bool) (st : step)
  : bool :=
  match st with
  | StOpenProcess _ | StDumpMemory _ => true
  | _ => negb memonly && inner_step g_quiet g_strings st
  end.

Definition not_open (st : step) : bool :=
  match st with
  | StOpenProcess _ => false
  | _ => true
  end.

(** How a step ends when [e] is thrown inside a
    [try { } catch (std::exception const&)] whose handler returns: it
    returns if [e] is a [std::exception], and lets [e] out otherwise. *)
Definition caught_or_thrown {A} (e : exn) (o : outcome State A) : Prop :=
  if is_std_exception e then returns o = true
  else exists s', o = Thrown e s'.

(** [m] returns [a] from every state after exactly the calls [delta]. *)
Definition calls {A} (m : M State A) (a : A) (delta : list step) : Prop :=
  forall s, exists s', m s = Returned a s' /\ steps s' = steps s ++ delta.

(** Two runs end alike after the same calls: both return the same value,
    both throw the same exception, or both stop at an assertion. *)
Definition same_calls {A} (o1 o2 : outcome State A) : Prop :=
  steps (final o1) = steps (final o2) /\
  match o1, o2 with
  | Returned a _, Returned b _ => a = b
  | Thrown e _, Thrown e' _ => e = e'
  | Aborted _, Aborted _ => True
  | _, _ => False
  end.

(** [m1] and [m2] end alike from states with the same calls behind them,
    whatever is on the output stream. *)
Definition agree {A} (m1 m2 : M State A) : Prop :=
  forall s1 s2, steps s1 = steps s2 -> same_calls (m1 s1) (m2 s2).

(** The parts [DumpPeFile] dumps, in its order. *)
Definition parts_in_order (g_quiet g_strings : bool) : list pe_part :=
  [Headers; Sections; Overlay; Tls; Exports; Imports; BoundImports;
   Relocations] ++
  (if negb g_quiet && g_strings then [Strings] else []) ++ [Warnings].

(** The parts up to and including the first one that fails, and what it
    throws. *)
Fixpoint until_failure (fails : pe_part -> option exn) (l : list pe_part)
  : list pe_part * option exn :=
  match l with
  | [] => ([], None)
  | p :: l' =>
      match fails p with
      | Some e => ([p], Some e)
      | None =>
          let '(done, r) := until_failure fails l' in (p :: done, r)
      end
  end.

(** ** Sample targets *)

Definition sample_module (handle : Z) (fails_at : option pe_part)
  (headers : option exn) : Module :=
  {| module_handle := handle; module_size := 0x1000;
     module_name := "a.dll"; module_path := "C:\a.dll";
     pe_file_ctor := None; dos_header_ctor := headers;
     nt_headers_ctor := None; pe_is64 := true; pe_size := 0x1000;
     dump_part := fun p =>
       match fails_at, p with
       | Some Sections, Sections =>
           Some (Error "VirtualProtectEx failed.")
       | _, _ => None
       end;
     has_new_bound_imports := false |}.

Definition sample_entry (pid : Z) (open_fails : option exn)
  (modules : list Module) : ProcessEntry :=
  {| entry_id := pid; entry_threads := 1; entry_parent_id := 0;
     entry_priority := 8; entry_name := "a.exe";
     thread_list := []; thread_list_fails := None;
     process_ctor := open_fails;
     get_path := inr "C:\a.exe"; get_path_native := inr "\Device\a.exe";
     is_wow64 := inr false;
     module_list := modules; module_list_fails := None;
     region_list := []; region_list_fails := None;
     dump_memory := None |}.

Definition start : State := {| wcout := []; steps := [] |}.

End Dump.

(** * The dumper's handling of strings read from a file *)

Module Text.

(** [WarningType] of [warning.hpp], as [main.cpp] uses it. *)
Inductive WarningType : Type := kSuspicious | kUnsupported | kAll.

(** The output stream and, in order, the calls of [WarnForCurrentFile]
    made so far. *)
Record State : Type := {
  wcout : list Dump.output;
  warnings : list WarningType
}.

(** [value.c_str()], as the callee reads it: the characters before the
    first NUL. *)
Fixpoint c_str (value : string) : string :=
  match value with
  | EmptyString => EmptyString
  | String c rest =>
      if Ascii.eqb c Ascii.zero then EmptyString else String c (c_str rest)
  end.

(** [value.erase(index)]: the first [index] characters are kept;
    [std::out_of_range], a [std::exception], if [index] is beyond the
    end. *)
Definition erase (index : nat) (value : string) : M State string :=
  if (index <=? String.length value)%nat
  then ret (substring 0 index value)
  else throw (Error "basic_string::erase: out of range").

Definition kMaxNameLength : nat := 1024.

Section WithFinder.

(** [g_quiet], and [FindFirstUnprintableClassicLocale] of another
    translation unit: [None] is [std::string::npos]. *)
Variable g_quiet : bool.
Variable FindFirstUnprintableClassicLocale : string -> option nat.

Definition write (o : Dump.output) : M State unit :=
  modify (fun s => {| wcout := if g_quiet then wcout s else wcout s ++ [o];
                      warnings := warnings s |}).

Definition WriteNormal (text : string) (tabs : Z) : M State unit :=
  write (Dump.Normal text tabs).

Definition WriteNamedNormal (name value : string) (tabs : Z)
  : M State unit :=
  write (Dump.NamedNormal name value tabs).

(** [WarnForCurrentFile(warning_type)], of [warning.hpp]: the call is
    recorded. *)
Definition WarnForCurrentFile (warning_type : WarningType) : M State unit :=
  modify (fun s => {| wcout := wcout s;
                      warnings := warnings s ++ [warning_type] |}).

(** [void HandleLongOrUnprintableString(std::wstring const& name,
    std::wstring const& description, std::size_t tabs,
    WarningType warning_type, std::string value)] *)
Definition HandleLongOrUnprintableString (name description : string)
  (tabs : Z) (warning_type : WarningType) (value : string)
  : M State unit :=
  let unprintable := FindFirstUnprintableClassicLocale value in
  value <-
    match unprintable with
    | Some index =>
        WriteNormal
          (String.append "WARNING! Detected unprintable "
             (String.append description ". Truncating.")) tabs ;;;
        WarnForCurrentFile warning_type ;;;
        erase index value
    | None =>
        if (kMaxNameLength <? String.length value)%nat then
          WriteNormal
            (String.append "WARNING! Detected suspiciously long "
               (String.append description ". Truncating.")) tabs ;;;
          WarnForCurrentFile warning_type ;;;
          erase kMaxNameLength value
        else ret value
    end ;;
  WriteNamedNormal name (c_str value) tabs.

End WithFinder.


(** ** Sample strings and finders *)



Definition start : State := {| wcout := []; warnings := [] |}.

End Text.

(** * Facts about the protection guard *)

(** Unfold the monad and the state plumbing. *)
Ltac unfold_monad :=
  unfold bind, ret, throw, get, modify, try_catch_all, try_catch_std,
         zoom, HADESMEM_DETAIL_ASSERT in *.

Module GuardFacts.

Import Guard.

Lemma set_old_protect_idem {Process} (g : ProtectGuard Process) :
  set_old_protect 0 (set_old_protect 0 g) = set_old_protect 0 g.
Proof. reflexivity. Qed.

Lemma guard_eta {Process} (g : ProtectGuard Process) :
  {| process_ := process_ g; type_ := type_ g;
     can_read_or_write_ := can_read_or_write_ g;
     old_protect_ := old_protect_ g; mbi_ := mbi_ g |} = g.
Proof. destruct g; reflexivity. Qed.

Lemma set_old_protect_same {Process} (g : ProtectGuard Process) :
  old_protect_ g = 0 -> set_old_protect 0 g = g.
Proof. destruct g; simpl; intros ->; reflexivity. Qed.

Section WithPlatform.

Context {E Process : Type} (P : Platform E Process).

(** [Restore] does nothing on a guard that holds no previous flags. *)
Lemma Restore_noop (g : ProtectGuard Process) (w : World E Process) :
  old_protect_ g = 0 -> Restore P (g, w) = Returned tt (g, w).
Proof.
  intros H0. unfold Restore. unfold_monad. simpl. rewrite H0. reflexivity.
Qed.

(** [Restore] on a guard that found the region accessible only forgets the
    saved value. *)
Lemma Restore_satisfied (g : ProtectGuard Process) (w : World E Process) :
  can_read_or_write_ g = true ->
  Restore P (g, w) = Returned tt (set_old_protect 0 g, w).
Proof.
  intros Hc. unfold Restore. unfold_monad. simpl.
  destruct (old_protect_ g =? 0) eqn:H0.
  - apply Z.eqb_eq in H0. rewrite set_old_protect_same by assumption.
    reflexivity.
  - rewrite Hc. reflexivity.
Qed.

(** [Restore] on a guard with a pending change: one [Protect] call with the
    saved flags; the saved value is cleared only if that call returns. *)
Lemma Restore_pending (g : ProtectGuard Process) (w : World E Process) :
  old_protect_ g <> 0 -> can_read_or_write_ g = false ->
  Restore P (g, w) =
  match Protect_impl P (process_ g) (mbi_ g) (old_protect_ g) (env w) with
  | (inr _, e') =>
      Returned tt (set_old_protect 0 g,
                   {| env := e';
                      protect_log := protect_log w ++ [restore_call g] |})
  | (inl x, e') =>
      Thrown x (g, {| env := e';
                      protect_log := protect_log w ++ [restore_call g] |})
  end.
Proof.
  intros H0 Hc. unfold Restore, in_world, Protect. unfold_monad. simpl.
  apply Z.eqb_neq in H0. rewrite H0, Hc. simpl.
  destruct (Protect_impl P (process_ g) (mbi_ g) (old_protect_ g) (env w))
    as [[x | old] e']; reflexivity.
Qed.

(** What one [Restore] can do: the guard keeps its fields or has the saved
    value cleared, at most the restoring call is made, and no assertion is
    involved. *)
Lemma Restore_shape (g : ProtectGuard Process) (w : World E Process) :
  exists calls,
    (calls = [] \/ calls = [restore_call g] /\ old_protect_ g <> 0) /\
    (fst (final (Restore P (g, w))) = g \/
     fst (final (Restore P (g, w))) = set_old_protect 0 g) /\
    protect_log (snd (final (Restore P (g, w)))) = protect_log w ++ calls /\
    (forall s, Restore P (g, w) <> Aborted s).
Proof.
  destruct (Z.eq_dec (old_protect_ g) 0) as [H0 | H0].
  - rewrite (Restore_noop g w H0). exists []. simpl.
    rewrite app_nil_r. repeat split; auto; try congruence; intros; congruence.
  - destruct (can_read_or_write_ g) eqn:Hc.
    + rewrite (Restore_satisfied g w Hc). exists []. simpl.
      rewrite app_nil_r. repeat split; auto; try congruence; intros; congruence.
    + rewrite (Restore_pending g w H0 Hc).
      destruct (Protect_impl P (process_ g) (mbi_ g) (old_protect_ g) (env w))
        as [[x | old] e']; exists [restore_call g]; simpl;
        repeat split; auto; try congruence; intros; congruence.
Qed.

(** The destructor has the same shape, except that it never throws. *)
Lemma destroy_shape (g : ProtectGuard Process) (w : World E Process) :
  exists calls,
    (calls = [] \/ calls = [restore_call g] /\ old_protect_ g <> 0) /\
    (fst (final (destroy P (g, w))) = g \/
     fst (final (destroy P (g, w))) = set_old_protect 0 g) /\
    protect_log (snd (final (destroy P (g, w)))) = protect_log w ++ calls /\
    (forall e s, destroy P (g, w) <> Thrown e s).
Proof.
  destruct (Restore_shape g w) as (calls & Hcalls & Hg & Hlog & _).
  exists calls. unfold destroy, RestoreUnchecked, try_catch_all.
  destruct (Restore P (g, w)) as [[] [g1 w1] | e [g1 w1] | [g1 w1]] eqn:HR;
    simpl in *.
  - repeat split; auto; try congruence; intros; congruence.
  - unfold in_world, TRACE_A. unfold_monad. simpl.
    destruct (assertions P); simpl; repeat split; auto; try congruence; intros; congruence.
  - repeat split; auto; try congruence; intros; congruence.
Qed.

(** C1, as the code has it.  Two calls of [Restore] on one guard: if the
    first returns, at most one [Protect] call has been made and the second
    call changes nothing and calls nothing; if the first fails, the guard is
    as before, and the second call makes the same [Protect] call again.  No
    assertion is involved. *)
Theorem Restore_twice (g : ProtectGuard Process) (w : World E Process) :
  match Restore P (g, w) with
  | Returned _ (g1, w1) =>
      (List.length (protect_log w1) <= List.length (protect_log w) + 1)%nat /\
      Restore P (g1, w1) = Returned tt (g1, w1)
  | Thrown _ (g1, w1) =>
      g1 = g /\
      protect_log w1 = protect_log w ++ [restore_call g] /\
      protect_log (snd (final (Restore P (g1, w1)))) =
        protect_log w ++ [restore_call g; restore_call g]
  | Aborted _ => False
  end.
Proof.
  destruct (Z.eq_dec (old_protect_ g) 0) as [H0 | H0].
  - rewrite (Restore_noop g w H0). split; [lia | apply Restore_noop, H0].
  - destruct (can_read_or_write_ g) eqn:Hc.
    + rewrite (Restore_satisfied g w Hc).
      split; [lia | apply Restore_noop; reflexivity].
    + rewrite (Restore_pending g w H0 Hc).
      destruct (Protect_impl P (process_ g) (mbi_ g) (old_protect_ g) (env w))
        as [[x | old] e'] eqn:HP.
      * split; [reflexivity | split; [reflexivity |]].
        rewrite (Restore_pending g _ H0 Hc). simpl.
        destruct (Protect_impl P (process_ g) (mbi_ g) (old_protect_ g) e')
          as [[x' | old'] e'']; simpl; rewrite <- app_assoc; reflexivity.
      * split; [simpl; rewrite length_app; simpl; lia
               | apply Restore_noop; reflexivity].
Qed.

(** C6.  Construction on a region that does not give the requested access:
    a bad region is refused before any [Protect] call; otherwise the first
    call asks for [PAGE_EXECUTE_READWRITE]; if and only if that one throws,
    a second and last call asks for [PAGE_READWRITE], and what that one
    throws leaves the constructor. *)
Theorem ProtectGuard_two_attempts (process : Process)
  (mbi : MEMORY_BASIC_INFORMATION) (type : ProtectGuardType)
  (w : World E Process) :
  already_satisfied P type mbi = false ->
  let first := {| call_process := process; call_mbi := mbi;
                  call_protect := PAGE_EXECUTE_READWRITE |} in
  let second := {| call_process := process; call_mbi := mbi;
                   call_protect := PAGE_READWRITE |} in
  let guard old := {| process_ := process; type_ := type;
                      can_read_or_write_ := false;
                      old_protect_ := old; mbi_ := mbi |} in
  ProtectGuard_mbi P process mbi type w =
  if IsBadProtect P mbi then Thrown InvalidProtection w
  else
    match Protect_impl P process mbi PAGE_EXECUTE_READWRITE (env w) with
    | (inr old, e1) =>
        Returned (guard old)
          {| env := e1; protect_log := protect_log w ++ [first] |}
    | (inl _, e1) =>
        match Protect_impl P process mbi PAGE_READWRITE e1 with
        | (inr old, e2) =>
            Returned (guard old)
              {| env := e2; protect_log := protect_log w ++ [first; second] |}
        | (inl x, e2) =>
            Thrown x
              {| env := e2; protect_log := protect_log w ++ [first; second] |}
        end
    end.
Proof.
  intros Hsat. unfold ProtectGuard_mbi.
  destruct (IsBadProtect P mbi); [reflexivity |].
  change (match type with
          | kRead => CanRead P mbi
          | kWrite => CanWrite P mbi
          end) with (already_satisfied P type mbi).
  rewrite Hsat. simpl. unfold Protect. unfold_monad. simpl.
  destruct (Protect_impl P process mbi PAGE_EXECUTE_READWRITE (env w))
    as [[x | old] e1]; [| reflexivity].
  simpl.
  destruct (Protect_impl P process mbi PAGE_READWRITE e1)
    as [[x' | old'] e2]; simpl; rewrite <- app_assoc; reflexivity.
Qed.

(** C7.  Construction on a region classified bad throws the
    bad-protection error and leaves the world, the list of [Protect] calls
    included, as it was. *)
Theorem ProtectGuard_bad_region (process : Process)
  (mbi : MEMORY_BASIC_INFORMATION) (type : ProtectGuardType)
  (w : World E Process) :
  IsBadProtect P mbi = true ->
  ProtectGuard_mbi P process mbi type w = Thrown InvalidProtection w.
Proof.
  intros Hbad. unfold ProtectGuard_mbi. rewrite Hbad. reflexivity.
Qed.

(** C8.  Construction on a region that passes the bad-protection check and
    gives the requested access returns a guard with [can_read_or_write_]
    set, without touching the world; on that guard [Restore] and the
    destructor return without touching the guard or the world, whenever
    they run. *)
Theorem ProtectGuard_already_satisfied (process : Process)
  (mbi : MEMORY_BASIC_INFORMATION) (type : ProtectGuardType)
  (w : World E Process) :
  IsBadProtect P mbi = false ->
  already_satisfied P type mbi = true ->
  exists g,
    ProtectGuard_mbi P process mbi type w = Returned g w /\
    can_read_or_write_ g = true /\
    forall w', Restore P (g, w') = Returned tt (g, w') /\
               destroy P (g, w') = Returned tt (g, w').
Proof.
  intros Hbad Hsat.
  exists {| process_ := process; type_ := type; can_read_or_write_ := true;
            old_protect_ := 0; mbi_ := mbi |}.
  split; [| split; [reflexivity |]].
  - unfold ProtectGuard_mbi. rewrite Hbad.
    change (match type with
            | kRead => CanRead P mbi
            | kWrite => CanWrite P mbi
            end) with (already_satisfied P type mbi).
    rewrite Hsat. reflexivity.
  - intros w'. split.
    + apply Restore_noop. reflexivity.
    + unfold destroy, RestoreUnchecked, try_catch_all.
      rewrite Restore_noop by reflexivity. reflexivity.
Qed.





(** A guard move-assigned to itself forgets its pending change as well:
    no [Protect] call then or in a later [Restore] or destructor. *)
Lemma move_assign_self_forgets (g : ProtectGuard Process)
  (w : World E Process) :
  move_assign_self (g, w) = Returned tt (set_old_protect 0 g, w) /\
  forall w',
    Restore P (set_old_protect 0 g, w') =
      Returned tt (set_old_protect 0 g, w') /\
    destroy P (set_old_protect 0 g, w') =
      Returned tt (set_old_protect 0 g, w').
Proof.
  split; [reflexivity |]. intros w'. split.
  - apply Restore_noop. reflexivity.
  - unfold destroy, RestoreUnchecked, try_catch_all.
    rewrite Restore_noop by reflexivity. reflexivity.
Qed.


End WithPlatform.

(** C1 as stated fails: with a mutator that refuses, the first [Restore] on
    a guard with a pending change makes its [Protect] call and throws, and
    the second [Restore] makes the call again: two calls in all. *)
Lemma Restore_twice_protects_twice :
  let P := sample_platform RefusesAll false in
  let s1 := final (Restore P (pending_guard, empty_world)) in
  let s2 := final (Restore P s1) in
  returns (Restore P (pending_guard, empty_world)) = false /\
  protect_log (snd s1) = [restore_call pending_guard] /\
  protect_log (snd s2) =
    [restore_call pending_guard; restore_call pending_guard] /\
  List.length (protect_log (snd s2)) = 2%nat.
Proof. vm_compute. repeat split. Qed.

(** C6 on a read-only page whose mutator refuses execute permission: two
    calls, and the guard keeps the flags the second one returned. *)
Lemma ProtectGuard_two_attempts_witness :
  let P := sample_platform RefusesExecute false in
  let mbi := sample_region PAGE_READONLY in
  already_satisfied P kWrite mbi = false /\
  ProtectGuard_mbi P 7 mbi kWrite empty_world =
    Returned
      {| process_ := 7; type_ := kWrite; can_read_or_write_ := false;
         old_protect_ := PAGE_READONLY; mbi_ := mbi |}
      {| env := tt;
         protect_log :=
           [ {| call_process := 7; call_mbi := mbi;
                call_protect := PAGE_EXECUTE_READWRITE |};
             {| call_process := 7; call_mbi := mbi;
                call_protect := PAGE_READWRITE |} ] |}.
Proof.
  split; [reflexivity |].
  exact (ProtectGuard_two_attempts (sample_platform RefusesExecute false) 7
           (sample_region PAGE_READONLY) kWrite empty_world eq_refl).
Defined.

(** C7 on a no-access page. *)
Lemma ProtectGuard_bad_region_witness :
  let P := sample_platform Grants false in
  let mbi := sample_region PAGE_NOACCESS in
  IsBadProtect P mbi = true /\
  ProtectGuard_mbi P 7 mbi kRead empty_world =
    Thrown InvalidProtection empty_world.
Proof.
  split; [reflexivity |].
  exact (ProtectGuard_bad_region (sample_platform Grants false) 7
           (sample_region PAGE_NOACCESS) kRead empty_world eq_refl).
Defined.

(** C8 on a read-write page asked for writing. *)
Lemma ProtectGuard_already_satisfied_witness :
  let P := sample_platform RefusesAll false in
  let mbi := sample_region PAGE_READWRITE in
  IsBadProtect P mbi = false /\
  already_satisfied P kWrite mbi = true /\
  exists g,
    ProtectGuard_mbi P 7 mbi kWrite empty_world = Returned g empty_world /\
    can_read_or_write_ g = true /\
    forall w', Restore P (g, w') = Returned tt (g, w') /\
               destroy P (g, w') = Returned tt (g, w').
Proof.
  split; [reflexivity | split; [reflexivity |]].
  exact (ProtectGuard_already_satisfied (sample_platform RefusesAll false) 7
           (sample_region PAGE_READWRITE) kWrite empty_world
           eq_refl eq_refl).
Defined.

(** C8 as stated fails on a guard page that is writable: the region gives
    the requested access, yet the bad-protection check comes first and the
    constructor throws; no guard exists whose [can_read_or_write_] could be
    set. *)
Lemma ProtectGuard_writable_guard_page_throws :
  let P := sample_platform Grants false in
  let mbi := sample_region (Z.lor PAGE_READWRITE PAGE_GUARD) in
  already_satisfied P kWrite mbi = true /\
  IsBadProtect P mbi = true /\
  ProtectGuard_mbi P 7 mbi kWrite empty_world =
    Thrown InvalidProtection empty_world /\
  returns (ProtectGuard_mbi P 7 mbi kWrite empty_world) = false.
Proof. vm_compute. repeat split. Qed.

(** A guard with a pending change is move-assigned from one without; both
    are then destroyed.  No [Protect] call is ever made: the read-only page
    stays as the first guard left it. *)
Example move_assign_then_destroy_both :
  let P := sample_platform Grants true in
  let s1 := final (move_assign (pending_guard, idle_guard, empty_world)) in
  let s2 := final (uses P [UseDestroy true; UseDestroy false] s1) in
  fst (fst s1) = idle_guard /\
  protect_log (snd s2) = [].
Proof. vm_compute. split; reflexivity. Qed.

End GuardFacts.

(** * Facts about the proxy *)

Module ProxyFacts.

Import Proxy.

Ltac unfold_proxy :=
  unfold LastErrorPreserver_ctor, LastErrorPreserver_Revert,
         LastErrorPreserver_Update, LastErrorPreserver_dtor,
         HADESMEM_DETAIL_TRACE_A, HADESMEM_DETAIL_TRACE_NOISY_A,
         HADESMEM_DETAIL_TRACE_NOISY_FORMAT_A, Cleanup, delete_this,
         refs_add, delegate, call_env, GetLastError, SetLastError,
         on_env, emit in *.

Lemma set_last_error_same {D} (e : Env D) :
  set_last_error (last_error e) e = e.
Proof. destruct e; reflexivity. Qed.

Lemma last_error_set {D} (v : DWORD) (e : Env D) :
  last_error (set_last_error v e) = v.
Proof. reflexivity. Qed.

Lemma last_delegation_app (l l' : list event) :
  last_delegation (l ++ l') =
  match last_delegation l' with
  | Some e => Some e
  | None => last_delegation l
  end.
Proof.
  induction l as [| ev l IH]; simpl.
  - destruct (last_delegation l'); reflexivity.
  - rewrite IH. destruct (last_delegation l'); reflexivity.
Qed.

Lemma zero_transitions_app (l l' : list event) :
  zero_transitions (l ++ l') =
  (zero_transitions l + zero_transitions l')%nat.
Proof. unfold zero_transitions. rewrite filter_app, length_app. reflexivity. Qed.

Section WithDevice.

Context {D : Type} (dev : Device D) (H : Hooks D).

(** ** Each method, written out *)

Lemma AddRef_eq (s : State D) :
  AddRef dev H s =
  let r := refs_ (proxy s) in
  let '(ret, e1) := dev_AddRef dev (env s) in
  Returned ret
    {| proxy := set_refs (r + 1) (proxy s);
       env := trace_noisy_impl H refs_format [ret; r + 1] e1;
       log := log s ++ [EvRefs r (r + 1); EvDevice mAddRef ret (last_error e1)]
    |}.
Proof.
  unfold AddRef. unfold_proxy. unfold_monad. simpl.
  destruct (dev_AddRef dev (env s)) as [ret e1]. simpl.
  rewrite <- app_assoc. reflexivity.
Qed.

Lemma Release_eq (s : State D) :
  Release dev H s =
  let r := refs_ (proxy s) - 1 in
  let p1 := set_refs r (proxy s) in
  if assertions H && negb (0 <=? r) then
    Aborted {| proxy := p1; env := env s;
               log := log s ++ [EvRefs (refs_ (proxy s)) r] |}
  else
    let e0 := if r =? 0 then trace_impl H "Called." (env s) else env s in
    let '(ret, e2) :=
      dev_Release dev (set_last_error (last_error (env s)) e0) in
    Returned ret
      {| proxy := if ret =? 0 then mark_deleted p1 else p1;
         env := set_last_error (last_error e2)
                  (trace_noisy_impl H refs_format [ret; r] e2);
         log := log s ++ [EvRefs (refs_ (proxy s)) r] ++
                (if r =? 0 then [EvCleanup] else []) ++
                [EvDevice mRelease ret (last_error e2)] ++
                (if ret =? 0 then [EvDelete] else []) |}.
Proof.
  unfold Release, Z.sub. unfold_proxy. unfold_monad. cbn.
  destruct (assertions H && negb (0 <=? refs_ (proxy s) + -1)) eqn:Ha.
  - reflexivity.
  - destruct (refs_ (proxy s) + -1 =? 0) eqn:Hz; cbn.
    + destruct (dev_Release dev _) as [ret e2]. cbn.
      destruct (ret =? 0); cbn; repeat rewrite <- app_assoc; reflexivity.
    + destruct (dev_Release dev _) as [ret e2]. cbn.
      destruct (ret =? 0); cbn; repeat rewrite <- app_assoc; reflexivity.
Qed.

Lemma QueryInterface_eq (riid obj0 : Z) (s : State D) :
  QueryInterface dev H riid obj0 s =
  let '((hr, obj), e1) := dev_QueryInterface dev riid obj0 (env s) in
  let r := refs_ (proxy s) in
  let ev := EvDevice mQueryInterface hr (last_error e1) in
  if SUCCEEDED hr then
    let e2 := trace_noisy_impl H "Succeeded." [] e1 in
    if obj =? device_ (proxy s) then
      Returned (hr, self (proxy s))
        {| proxy := set_refs (r + 1) (proxy s);
           env := set_last_error (last_error e1) e2;
           log := log s ++ [ev; EvRefs r (r + 1)] |}
    else
      let e3 := trace_impl H "WARNING! Unhandled interface." e2 in
      if assertions H then
        Aborted {| proxy := proxy s; env := e3; log := log s ++ [ev] |}
      else
        let '(_, e4) := unknown_Release H obj e3 in
        Returned (E_NOINTERFACE, obj)
          {| proxy := proxy s;
             env := set_last_error (last_error e1) e4;
             log := log s ++ [ev; EvUnknownRelease obj] |}
  else
    Returned (hr, obj)
      {| proxy := proxy s;
         env := set_last_error (last_error e1)
                  (trace_noisy_impl H "Failed." [] e1);
         log := log s ++ [ev] |}.
Proof.
  destruct s as [p [le x] l].
  unfold QueryInterface. unfold_proxy. unfold_monad. cbn.
  destruct (dev_QueryInterface dev riid obj0 _) as [[hr obj] e1]. cbn.
  destruct (SUCCEEDED hr); cbn; [| reflexivity].
  destruct (obj =? device_ p); cbn.
  - rewrite <- app_assoc. reflexivity.
  - destruct (assertions H); cbn; [reflexivity |].
    destruct (unknown_Release H obj _) as [u e4]. cbn.
    rewrite <- app_assoc. reflexivity.
Qed.

Lemma GetDeviceState_eq (len_data : DWORD) (data : Z) (s : State D) :
  GetDeviceState dev H len_data data s =
  let '(r, e1) := dev_GetDeviceState dev len_data data (env s) in
  let '(r', e2) := OnGetDeviceState_Run H len_data data r e1 in
  Returned r'
    {| proxy := proxy s;
       env := set_last_error (last_error e1) e2;
       log := log s ++ [EvDevice mGetDeviceState r (last_error e1);
                        EvCallbacks mGetDeviceState] |}.
Proof.
  destruct s as [p [le x] l].
  unfold GetDeviceState. unfold_proxy. unfold_monad. cbn.
  destruct (dev_GetDeviceState dev len_data data _) as [r e1]. cbn.
  destruct (OnGetDeviceState_Run H len_data data r e1) as [r' e2]. cbn.
  rewrite <- app_assoc. reflexivity.
Qed.

Lemma GetDeviceData_eq (len : DWORD) (rgdod in_out : Z) (flags : DWORD)
  (s : State D) :
  GetDeviceData dev H len rgdod in_out flags s =
  let '(r, e1) := dev_GetDeviceData dev len rgdod in_out flags (env s) in
  let '(r', e2) :=
    OnGetDeviceData_Run H len rgdod in_out flags r (device_ (proxy s)) false
      e1 in
  Returned r'
    {| proxy := proxy s;
       env := set_last_error (last_error e1) e2;
       log := log s ++ [EvDevice mGetDeviceData r (last_error e1);
                        EvCallbacks mGetDeviceData] |}.
Proof.
  destruct s as [p [le x] l].
  unfold GetDeviceData. unfold_proxy. unfold_monad. cbn.
  destruct (dev_GetDeviceData dev len rgdod in_out flags _) as [r e1]. cbn.
  destruct (OnGetDeviceData_Run H len rgdod in_out flags r (device_ p) false
              e1) as [r' e2]. cbn.
  rewrite <- app_assoc. reflexivity.
Qed.

(** A method forwarded verbatim: the wrapped object's result and
    environment, and nothing else. *)
Lemma forward_eq (m : method) (args : list Z) (s : State D) :
  forward dev m args s =
  let '(r, e1) := dev_call dev m args (env s) in
  Returned r {| proxy := proxy s; env := e1;
                log := log s ++ [EvDevice m r (last_error e1)] |}.
Proof.
  unfold forward. unfold_proxy. unfold_monad. cbn.
  destruct (dev_call dev m args (env s)) as [r e1]. reflexivity.
Qed.

(** ** The last-error value *)

Ltac split_calls :=
  repeat match goal with
         | |- context [let '(_, _) := ?x in _] => destruct x
         | |- context [if ?b then _ else _] => destruct b
         end.

(** Every method but [AddRef] hands back the last-error value the wrapped
    object left, whatever the trace sink, [Cleanup], the callbacks and the
    release of a foreign interface did to it. *)
Lemma perform_isolates (c : call) (s s' : State D) :
  c <> CallAddRef ->
  perform dev H c s = Returned tt s' ->
  last_delegation (log s') = Some (last_error (env s')).
Proof.
  intros Hc.
  destruct c; try congruence; unfold perform, bind, ret.
  - rewrite QueryInterface_eq. cbv zeta. split_calls;
      intros Heq; inversion Heq; subst; cbn;
      rewrite last_delegation_app; reflexivity.
  - rewrite Release_eq. cbv zeta. split_calls;
      intros Heq; inversion Heq; subst; cbn;
      rewrite last_delegation_app; reflexivity.
  - rewrite GetDeviceState_eq. split_calls.
    intros Heq; inversion Heq; subst; cbn.
    rewrite last_delegation_app; reflexivity.
  - rewrite GetDeviceData_eq. split_calls.
    intros Heq; inversion Heq; subst; cbn.
    rewrite last_delegation_app; reflexivity.
  - rewrite forward_eq. split_calls.
    intros Heq; inversion Heq; subst; cbn.
    rewrite last_delegation_app; reflexivity.
Qed.

(** [AddRef] hands back what the trace sink left. *)
Lemma AddRef_last_error (s : State D) :
  let '(ret, e1) := dev_AddRef dev (env s) in
  last_error (env (final (AddRef dev H s))) =
  last_error
    (trace_noisy_impl H refs_format [ret; refs_ (proxy s) + 1] e1) /\
  last_delegation (log (final (AddRef dev H s))) = Some (last_error e1).
Proof.
  rewrite AddRef_eq. cbv zeta.
  destruct (dev_AddRef dev (env s)) as [ret e1]. cbn.
  rewrite last_delegation_app. split; reflexivity.
Qed.

(** ** Reference counting *)

(** C4.  One call of [Release], event by event.  The count is decremented
    first.  If assertions are compiled in and the count went below zero,
    the program stops there.  Otherwise [Cleanup] runs if and only if the
    count is now zero, and before the wrapped object's [Release]; that call
    is made on the caller's last-error value; [delete this] follows it if
    and only if it returned zero, and the proxy is then marked deleted. *)
Theorem Release_order (s : State D) :
  let r := refs_ (proxy s) - 1 in
  let decrement := EvRefs (refs_ (proxy s)) r in
  if assertions H && (r <? 0) then
    exists s',
      Release dev H s = Aborted s' /\
      log s' = log s ++ [decrement] /\
      deleted (proxy s') = deleted (proxy s)
  else
    let e0 := if r =? 0 then trace_impl H "Called." (env s) else env s in
    let '(ret, e2) :=
      dev_Release dev (set_last_error (last_error (env s)) e0) in
    exists s',
      Release dev H s = Returned ret s' /\
      log s' = log s ++ [decrement] ++
               (if r =? 0 then [EvCleanup] else []) ++
               [EvDevice mRelease ret (last_error e2)] ++
               (if ret =? 0 then [EvDelete] else []) /\
      refs_ (proxy s') = r /\
      deleted (proxy s') = (ret =? 0) || deleted (proxy s).
Proof.
  cbv zeta. rewrite Release_eq. cbv zeta.
  replace (negb (0 <=? refs_ (proxy s) - 1))
    with (refs_ (proxy s) - 1 <? 0)
    by (rewrite Z.ltb_antisym; reflexivity).
  destruct (assertions H && (refs_ (proxy s) - 1 <? 0)).
  - eexists. repeat split.
  - destruct (dev_Release dev _) as [ret e2].
    eexists. split; [reflexivity |]. cbn.
    destruct (ret =? 0); cbn; repeat split.
Qed.

(** C5.  A [QueryInterface] the wrapped object answers with success.  If it
    answers with itself, the caller gets the proxy's address and [refs_]
    is one higher.  If it answers with another object and assertions are
    compiled out, the caller gets [E_NOINTERFACE], [refs_] is as before, and
    the only thing done after the query is one [Release] on that object. *)
Theorem QueryInterface_identity (riid obj0 : Z) (s : State D)
  (hr : HRESULT) (obj : Z) (e1 : Env D) :
  dev_QueryInterface dev riid obj0 (env s) = ((hr, obj), e1) ->
  SUCCEEDED hr = true ->
  let query := EvDevice mQueryInterface hr (last_error e1) in
  (obj = device_ (proxy s) ->
   exists s',
     QueryInterface dev H riid obj0 s = Returned (hr, self (proxy s)) s' /\
     refs_ (proxy s') = refs_ (proxy s) + 1 /\
     log s' = log s ++
              [query; EvRefs (refs_ (proxy s)) (refs_ (proxy s) + 1)]) /\
  (obj <> device_ (proxy s) -> assertions H = false ->
   exists s',
     QueryInterface dev H riid obj0 s = Returned (E_NOINTERFACE, obj) s' /\
     refs_ (proxy s') = refs_ (proxy s) /\
     log s' = log s ++ [query; EvUnknownRelease obj] /\
     releases_of obj (log s') = S (releases_of obj (log s))).
Proof.
  intros Hdev Hok. cbv zeta. rewrite QueryInterface_eq, Hdev. cbv zeta.
  rewrite Hok. split.
  - intros ->. rewrite Z.eqb_refl. eexists. repeat split.
  - intros Hne Hassert. apply Z.eqb_neq in Hne. rewrite Hne, Hassert.
    destruct (unknown_Release H obj _) as [u e4].
    eexists. repeat split. cbn [log]. unfold releases_of.
    rewrite filter_app, length_app. cbn. rewrite Z.eqb_refl. cbn. lia.
Qed.

(** With assertions compiled in, the foreign answer stops the program at
    the assertion, before anything is released. *)
Lemma QueryInterface_unhandled_asserts (riid obj0 : Z) (s : State D)
  (hr : HRESULT) (obj : Z) (e1 : Env D) :
  dev_QueryInterface dev riid obj0 (env s) = ((hr, obj), e1) ->
  SUCCEEDED hr = true ->
  obj <> device_ (proxy s) -> assertions H = true ->
  exists s',
    QueryInterface dev H riid obj0 s = Aborted s' /\
    log s' = log s ++ [EvDevice mQueryInterface hr (last_error e1)].
Proof.
  intros Hdev Hok Hne Hassert. rewrite QueryInterface_eq, Hdev. cbv zeta.
  apply Z.eqb_neq in Hne. rewrite Hok, Hne, Hassert.
  eexists. repeat split.
Qed.

Lemma final_discard {S A} (m : M S A) (s : S) :
  final ((_ <- m ;; ret tt) s) = final (m s).
Proof. unfold bind, ret. destruct (m s); reflexivity. Qed.

Ltac decide_comparisons :=
  repeat (cbn;
          match goal with
          | |- context [?a =? ?b] => destruct (Z.eqb_spec a b)
          | |- context [?a <? ?b] => destruct (Z.ltb_spec a b)
          | |- context [?a <=? ?b] => destruct (Z.leb_spec a b)
          end);
  cbn; try lia.

Ltac budget :=
  unfold zero_budget, zero_transitions;
  cbn [final log proxy refs_ set_refs mark_deleted];
  rewrite ?filter_app, ?length_app;
  decide_comparisons.

(** One call does not raise the budget of zero transitions, provided a
    call that adds a reference is made with a positive count. *)
Lemma perform_budget (c : call) (s : State D) :
  (adds_reference c = true -> 0 < refs_ (proxy s)) ->
  (zero_budget (final (perform dev H c s)) <= zero_budget s)%nat.
Proof.
  intros Hadd.
  destruct c; unfold perform; rewrite final_discard;
    cbn [adds_reference] in Hadd.
  - specialize (Hadd eq_refl).
    rewrite QueryInterface_eq. cbv zeta. split_calls; budget.
  - specialize (Hadd eq_refl).
    rewrite AddRef_eq. cbv zeta. split_calls; budget.
  - rewrite Release_eq. cbv zeta. split_calls; budget.
  - rewrite GetDeviceState_eq. split_calls; budget.
  - rewrite GetDeviceData_eq. split_calls; budget.
  - rewrite forward_eq. split_calls; budget.
Qed.

(** Only a [Release] whose forwarded call returned zero deletes the
    proxy, and it does so right after that call. *)
Lemma perform_deletes (c : call) (s : State D) :
  deleted (proxy s) = false ->
  deleted (proxy (final (perform dev H c s))) = true ->
  exists l e,
    log (final (perform dev H c s)) = l ++ [EvDevice mRelease 0 e; EvDelete].
Proof.
  intros Hlive.
  destruct c; unfold perform; rewrite final_discard.
  - rewrite QueryInterface_eq. cbv zeta. split_calls; cbn; congruence.
  - rewrite AddRef_eq. cbv zeta. split_calls; cbn; congruence.
  - rewrite Release_eq. cbv zeta.
    destruct (assertions H && negb (0 <=? refs_ (proxy s) - 1));
      [cbn; congruence |].
    destruct (dev_Release dev _) as [ret e2].
    destruct (Z.eqb_spec ret 0) as [-> | Hret]; [| cbn; congruence].
    intros _. cbn [final log].
    exists (log s ++ [EvRefs (refs_ (proxy s)) (refs_ (proxy s) - 1)] ++
            (if refs_ (proxy s) - 1 =? 0 then [EvCleanup] else [])),
           (last_error e2).
    rewrite <- !app_assoc. reflexivity.
  - rewrite GetDeviceState_eq. split_calls; cbn; congruence.
  - rewrite GetDeviceData_eq. split_calls; cbn; congruence.
  - rewrite forward_eq. split_calls; cbn; congruence.
Qed.

Lemma perform_never_throws (c : call) (s : State D) (e : exn)
  (s1 : State D) :
  perform dev H c s <> Thrown e s1.
Proof.
  destruct c; unfold perform, bind, ret.
  - rewrite QueryInterface_eq. cbv zeta. split_calls; discriminate.
  - rewrite AddRef_eq. cbv zeta. split_calls; discriminate.
  - rewrite Release_eq. cbv zeta. split_calls; discriminate.
  - rewrite GetDeviceState_eq. split_calls; discriminate.
  - rewrite GetDeviceData_eq. split_calls; discriminate.
  - rewrite forward_eq. split_calls; discriminate.
Qed.

Lemma run_deleted (cs : list call) (s : State D) :
  deleted (proxy s) = true -> run dev H cs s = Returned tt s.
Proof.
  intros Hd. destruct cs; [reflexivity |].
  cbn [run]. unfold bind, get, ret. rewrite Hd. reflexivity.
Qed.

Lemma run_live (c : call) (cs : list call) (s : State D) :
  deleted (proxy s) = false ->
  run dev H (c :: cs) s =
  match perform dev H c s with
  | Returned _ s' => run dev H cs s'
  | Thrown e s' => Thrown e s'
  | Aborted s' => Aborted s'
  end.
Proof.
  intros Hlive. cbn [run]. unfold bind at 1. unfold get. rewrite Hlive.
  reflexivity.
Qed.

Lemma run_budget (cs : list call) :
  forall s : State D,
    holds_reference_when_adding dev H cs s = true ->
    (zero_budget (final (run dev H cs s)) <= zero_budget s)%nat.
Proof.
  induction cs as [| c cs IH]; intros s Hok; [cbn; lia |].
  destruct (deleted (proxy s)) eqn:Hlive.
  { rewrite run_deleted by assumption. cbn. lia. }
  rewrite run_live by assumption.
  cbn [holds_reference_when_adding] in Hok. rewrite Hlive in Hok.
  apply andb_prop in Hok. destruct Hok as [Hadd Hrest].
  assert (Hstep : (zero_budget (final (perform dev H c s)) <= zero_budget s)
                  %nat).
  { apply perform_budget. intros Ha. rewrite Ha in Hadd. cbn in Hadd.
    apply Z.ltb_lt, Hadd. }
  destruct (perform dev H c s) as [[] s1 | e s1 | s1]; cbn [final] in *.
  - specialize (IH s1 Hrest). lia.
  - exact Hstep.
  - exact Hstep.
Qed.

Lemma run_deletes (cs : list call) :
  forall s : State D,
    deleted (proxy s) = false ->
    deleted (proxy (final (run dev H cs s))) = true ->
    exists l e,
      log (final (run dev H cs s)) = l ++ [EvDevice mRelease 0 e; EvDelete].
Proof.
  induction cs as [| c cs IH]; intros s Hlive; [cbn; congruence |].
  rewrite run_live by assumption.
  pose proof (perform_deletes c s Hlive) as Hstep.
  destruct (perform dev H c s) as [[] s1 | e s1 | s1]; cbn [final] in *;
    auto.
  destruct (deleted (proxy s1)) eqn:Hd1.
  - rewrite run_deleted by assumption. cbn. auto.
  - apply IH, Hd1.
Qed.

(** C3, as the code has it.  In a run of calls in which every [AddRef] and
    [QueryInterface] is made while [refs_] is positive, [refs_] goes to zero
    at most once.  In every run, disciplined or not, a proxy that ends
    deleted was deleted by a [Release] right after the wrapped object's
    [Release] returned zero. *)
Theorem zero_once_and_gated_destruction (cs : list call) (s : State D) :
  let s' := final (run dev H cs s) in
  (holds_reference_when_adding dev H cs s = true ->
   (zero_transitions (log s') <= zero_transitions (log s) + 1)%nat) /\
  (deleted (proxy s) = false -> deleted (proxy s') = true ->
   exists l e, log s' = l ++ [EvDevice mRelease 0 e; EvDelete]).
Proof.
  cbv zeta. split.
  - intros Hok.
    pose proof (run_budget cs s Hok) as Hb. unfold zero_budget in Hb.
    destruct (0 <? refs_ (proxy s)),
             (0 <? refs_ (proxy (final (run dev H cs s)))); lia.
  - apply run_deletes.
Qed.

End WithDevice.

(** C2 fails at [AddRef].  The thread's last-error value is 5 and the
    wrapped [AddRef] leaves it so; the noisy trace that follows sets it to
    0, and [AddRef], which has no [LastErrorPreserver], returns with 0. *)
Theorem AddRef_last_error_not_isolated :
  let H := clobbering_hooks 0 false in
  let o := AddRef sample_device H (sample_state 1 1) in
  returns o = true /\
  last_delegation (log (final o)) = Some 5 /\
  last_error (env (final o)) = 0.
Proof. vm_compute. repeat split. Qed.

(** The same trace sink does not show through [Release]. *)
Example Release_last_error_isolated :
  let H := clobbering_hooks 0 false in
  let o := Release sample_device H (sample_state 1 2) in
  returns o = true /\
  last_delegation (log (final o)) = Some 5 /\
  last_error (env (final o)) = 5.
Proof. vm_compute. repeat split. Qed.

(** C3 as stated fails: while another holder keeps the wrapped object
    alive, [Release], [AddRef], [Release] take [refs_] from 1 to 0, back to
    1 and to 0 again; [Cleanup] runs twice and the proxy is not deleted. *)
Lemma refs_reach_zero_twice :
  let H := clobbering_hooks 0 true in
  let o := run sample_device H [CallRelease; CallAddRef; CallRelease]
             (sample_state 1 2) in
  returns o = true /\
  zero_transitions (log (final o)) = 2%nat /\
  List.length (filter (fun ev => match ev with EvCleanup => true
                                            | _ => false end)
                 (log (final o))) = 2%nat /\
  deleted (proxy (final o)) = false.
Proof. vm_compute. repeat split. Qed.

(** C3 on a client that takes a second reference and gives both back: one
    zero transition, and the deletion follows the wrapped [Release] that
    returned zero.  And, with assertions compiled out, on a client that
    adds a reference after the count has gone to zero and releases once
    too often: its proxy, too, is deleted only after the wrapped [Release]
    returned zero. *)
Lemma zero_once_and_gated_destruction_witness :
  (let H := clobbering_hooks 0 true in
   let cs := [CallAddRef; CallRelease; CallRelease] in
   let s := sample_state 1 1 in
   let s' := final (run sample_device H cs s) in
   holds_reference_when_adding sample_device H cs s = true /\
   (zero_transitions (log s') <= zero_transitions (log s) + 1)%nat /\
   deleted (proxy s') = true /\
   exists l e, log s' = l ++ [EvDevice mRelease 0 e; EvDelete]) /\
  (let H := clobbering_hooks 0 false in
   let cs := [CallRelease; CallAddRef; CallRelease; CallRelease] in
   let s := sample_state 1 2 in
   let s' := final (run sample_device H cs s) in
   holds_reference_when_adding sample_device H cs s = false /\
   deleted (proxy s') = true /\
   exists l e, log s' = l ++ [EvDevice mRelease 0 e; EvDelete]).
Proof.
  split.
  - destruct (zero_once_and_gated_destruction sample_device
                (clobbering_hooks 0 true)
                [CallAddRef; CallRelease; CallRelease] (sample_state 1 1))
      as [Hzero Hgate].
    split; [reflexivity |].
    split; [exact (Hzero eq_refl) |].
    split; [reflexivity | exact (Hgate eq_refl eq_refl)].
  - destruct (zero_once_and_gated_destruction sample_device
                (clobbering_hooks 0 false)
                [CallRelease; CallAddRef; CallRelease; CallRelease]
                (sample_state 1 2))
      as [_ Hgate].
    split; [reflexivity |].
    split; [reflexivity | exact (Hgate eq_refl eq_refl)].
Defined.

(** C5 as stated fails where assertions are compiled in: the wrapped object
    answers the query for the effect interface with the object at
    [0x3000], and the proxy stops at [HADESMEM_DETAIL_ASSERT(false)]; the
    call does not return [E_NOINTERFACE], and the object at [0x3000] is not
    released. *)
Lemma QueryInterface_foreign_identity_not_released :
  let H := clobbering_hooks 0 true in
  let s := sample_state 1 1 in
  let o := QueryInterface sample_device H IID_IDirectInputEffect 0 s in
  fst (dev_QueryInterface sample_device IID_IDirectInputEffect 0 (env s)) =
    (S_OK, 0x3000) /\
  SUCCEEDED S_OK = true /\
  0x3000 <> device_ (proxy s) /\
  returns o = false /\
  (exists s', o = Aborted s') /\
  releases_of 0x3000 (log (final o)) = 0%nat.
Proof.
  vm_compute. repeat split; try discriminate. eexists. reflexivity.
Qed.

(** C5 on the sample object: asked for its own interface it answers with
    itself, asked for the effect interface it answers with the object at
    [0x3000]. *)
Lemma QueryInterface_identity_witness :
  let H := clobbering_hooks 0 false in
  let s := sample_state 1 1 in
  (exists s',
     QueryInterface sample_device H IID_IDirectInputDevice8W 0 s =
       Returned (S_OK, 0x2000) s' /\
     refs_ (proxy s') = 2 /\
     log s' = [EvDevice mQueryInterface S_OK 5; EvRefs 1 2]) /\
  (exists s',
     QueryInterface sample_device H IID_IDirectInputEffect 0 s =
       Returned (E_NOINTERFACE, 0x3000) s' /\
     refs_ (proxy s') = 1 /\
     log s' = [EvDevice mQueryInterface S_OK 5; EvUnknownRelease 0x3000] /\
     releases_of 0x3000 (log s') = 1%nat).
Proof.
  split.
  - exact (proj1 (QueryInterface_identity sample_device
                    (clobbering_hooks 0 false) IID_IDirectInputDevice8W 0
                    (sample_state 1 1) eq_refl eq_refl) eq_refl).
  - refine (proj2 (QueryInterface_identity sample_device
                     (clobbering_hooks 0 false) IID_IDirectInputEffect 0
                     (sample_state 1 1) eq_refl eq_refl) _ eq_refl).
    discriminate.
Defined.

End ProxyFacts.

(** * Facts about the dumper's loops *)

Module DumpFacts.

Import Dump.

Lemma pick_app {A B} (f : A -> option B) (l l' : list A) :
  pick f (l ++ l') = pick f l ++ pick f l'.
Proof.
  induction l as [| a l IH]; [reflexivity |].
  simpl. destruct (f a); simpl; rewrite IH; reflexivity.
Qed.

(** ** Runs that return *)











(** ** Runs that an exception ends *)












Section WithGlobals.

Variables (g_quiet g_strings : bool).




















End WithGlobals.



End DumpFacts.

(** * More about the protection guard *)

Module GuardMore.

Import Guard GuardFacts.

Section WithPlatform.

Context {E Process : Type} (P : Platform E Process).

(** What the constructor returns, when it returns: the fields are the
    arguments, and [can_read_or_write_] excludes a saved value. *)
Lemma ProtectGuard_mbi_returned (process : Process)
  (mbi : MEMORY_BASIC_INFORMATION) (type : ProtectGuardType)
  (w w1 : World E Process) (g : ProtectGuard Process) :
  ProtectGuard_mbi P process mbi type w = Returned g w1 ->
  process_ g = process /\ mbi_ g = mbi /\ type_ g = type /\
  can_read_or_write_ g = already_satisfied P type mbi /\
  (can_read_or_write_ g = true -> old_protect_ g = 0 /\ w1 = w).
Proof.
  unfold ProtectGuard_mbi.
  destruct (IsBadProtect P mbi); [discriminate |].
  change (match type with
          | kRead => CanRead P mbi
          | kWrite => CanWrite P mbi
          end) with (already_satisfied P type mbi).
  destruct (already_satisfied P type mbi); cbn [negb].
  - intros Heq. inversion Heq; subst. cbn. repeat split; auto.
  - unfold Protect. unfold_monad. cbn.
    destruct (Protect_impl P process mbi PAGE_EXECUTE_READWRITE (env w))
      as [[x | old] e1]; cbn.
    + destruct (Protect_impl P process mbi PAGE_READWRITE e1)
        as [[x' | old'] e2]; cbn; intros Heq; inversion Heq; subst; cbn.
      repeat split; discriminate.
    + intros Heq; inversion Heq; subst; cbn. repeat split; discriminate.
Qed.

(** The [Protect] calls of the destructor, on any guard that keeps the
    constructor's invariant. *)
Lemma destroy_calls (g : ProtectGuard Process) (w : World E Process) :
  well_formed g ->
  protect_log (snd (final (destroy P (g, w)))) =
  protect_log w ++ (if old_protect_ g =? 0 then [] else [restore_call g]).
Proof.
  intros Hwf. unfold destroy, RestoreUnchecked, try_catch_all.
  destruct (Z.eqb_spec (old_protect_ g) 0) as [H0 | H0].
  - rewrite Restore_noop by assumption. cbn. rewrite app_nil_r. reflexivity.
  - destruct (can_read_or_write_ g) eqn:Hc; [elim H0; apply Hwf, Hc |].
    rewrite (Restore_pending P g w H0 Hc).
    destruct (Protect_impl P (process_ g) (mbi_ g) (old_protect_ g) (env w))
      as [[x | old] e1]; cbn; [| reflexivity].
    unfold in_world, TRACE_A. unfold_monad. cbn.
    destruct (assertions P); reflexivity.
Qed.

(** X1.  A guard the constructor returned, destroyed: the destructor makes
    exactly one [Protect] call, on the constructor's process and region and
    with the flags the constructor saved, if those flags are not zero, and
    no call otherwise. *)
Theorem construct_then_destroy (process : Process)
  (mbi : MEMORY_BASIC_INFORMATION) (type : ProtectGuardType)
  (w w1 : World E Process) (g : ProtectGuard Process) :
  ProtectGuard_mbi P process mbi type w = Returned g w1 ->
  protect_log (snd (final (destroy P (g, w1)))) =
  protect_log w1 ++
  (if old_protect_ g =? 0 then []
   else [{| call_process := process; call_mbi := mbi;
            call_protect := old_protect_ g |}]).
Proof.
  intros Hret.
  destruct (ProtectGuard_mbi_returned _ _ _ _ Hret)
    as (Hp & Hm & _ & _ & Hwf).
  rewrite destroy_calls by (intros Hc; apply Hwf, Hc).
  unfold restore_call. rewrite Hp, Hm. reflexivity.
Qed.

(** X2.  If the mutator grants the first request and reports zero as the
    previous flags, the constructor returns a guard that has changed the
    protection and holds nothing to put back: [Restore] and the destructor
    make no [Protect] call on it. *)
Theorem zero_previous_flags_never_restored (process : Process)
  (mbi : MEMORY_BASIC_INFORMATION) (type : ProtectGuardType)
  (w : World E Process) (e1 : E) :
  IsBadProtect P mbi = false ->
  already_satisfied P type mbi = false ->
  Protect_impl P process mbi PAGE_EXECUTE_READWRITE (env w) = (inr 0, e1) ->
  exists g w1,
    ProtectGuard_mbi P process mbi type w = Returned g w1 /\
    protect_log w1 =
      protect_log w ++ [{| call_process := process; call_mbi := mbi;
                           call_protect := PAGE_EXECUTE_READWRITE |}] /\
    forall w', Restore P (g, w') = Returned tt (g, w') /\
               destroy P (g, w') = Returned tt (g, w').
Proof.
  intros Hbad Hsat Hp.
  eexists _, _. split; [| split].
  - unfold ProtectGuard_mbi. rewrite Hbad.
    change (match type with
            | kRead => CanRead P mbi
            | kWrite => CanWrite P mbi
            end) with (already_satisfied P type mbi).
    rewrite Hsat. cbn [negb]. unfold Protect. unfold_monad. cbn.
    rewrite Hp. reflexivity.
  - reflexivity.
  - intros w'. split.
    + apply Restore_noop. reflexivity.
    + unfold destroy, RestoreUnchecked, try_catch_all.
      rewrite Restore_noop by reflexivity. reflexivity.
Qed.

(** X3.  The destructor never lets an exception out.  With assertions
    compiled out it always returns.  When its [Restore] throws, the guard
    keeps its saved flags, so the protection stays changed and a later
    [Restore] would try again. *)
Theorem destroy_noexcept (g : ProtectGuard Process) (w : World E Process) :
  (forall e s, destroy P (g, w) <> Thrown e s) /\
  (assertions P = false -> returns (destroy P (g, w)) = true) /\
  (returns (Restore P (g, w)) = false ->
   fst (final (destroy P (g, w))) = g /\
   old_protect_ g <> 0 /\
   protect_log (snd (final (destroy P (g, w)))) =
     protect_log w ++ [restore_call g]).
Proof.
  split; [| split].
  - destruct (destroy_shape P g w) as (_ & _ & _ & _ & Hno). exact Hno.
  - intros Ha. unfold destroy, RestoreUnchecked, try_catch_all.
    destruct (Restore P (g, w)) as [[] s1 | e s1 | s1] eqn:HR;
      [reflexivity | |].
    + unfold in_world, TRACE_A. unfold_monad. cbn. rewrite Ha. reflexivity.
    + destruct (Restore_shape P g w) as (_ & _ & _ & _ & Hno).
      elim (Hno s1 HR).
  - destruct (Z.eq_dec (old_protect_ g) 0) as [H0 | H0];
      [rewrite Restore_noop by assumption; discriminate |].
    destruct (can_read_or_write_ g) eqn:Hc;
      [rewrite Restore_satisfied by assumption; discriminate |].
    unfold destroy, RestoreUnchecked, try_catch_all.
    rewrite (Restore_pending P g w H0 Hc).
    destruct (Protect_impl P (process_ g) (mbi_ g) (old_protect_ g) (env w))
      as [[x | old] e1]; cbn; [| discriminate].
    intros _. unfold in_world, TRACE_A. unfold_monad. cbn.
    destruct (assertions P); cbn; auto.
Qed.

(** X4.  Move construction hands the restoration over: the new guard has
    the fields of the old one, and the old one's [Restore] and destructor
    make no [Protect] call from then on. *)
Theorem move_construct_transfers (other : ProtectGuard Process)
  (w : World E Process) :
  move_construct (other, w) = Returned other (set_old_protect 0 other, w) /\
  forall w',
    Restore P (set_old_protect 0 other, w') =
      Returned tt (set_old_protect 0 other, w') /\
    destroy P (set_old_protect 0 other, w') =
      Returned tt (set_old_protect 0 other, w').
Proof.
  split.
  - unfold move_construct. unfold_monad. cbn. rewrite guard_eta.
    reflexivity.
  - intros w'. split.
    + apply Restore_noop. reflexivity.
    + unfold destroy, RestoreUnchecked, try_catch_all.
      rewrite Restore_noop by reflexivity. reflexivity.
Qed.

(** X5.  The invariant of the guard: the constructor establishes
    [well_formed], and [Restore], the destructor and both moves keep it, on
    every guard involved: the guard [Restore] or the destructor ran on, the
    target and the source of a move assignment (also of an assignment to
    itself), the guard a move construction returns and the guard it moved
    from. *)
Theorem well_formed_kept :
  (forall process mbi type w g w1,
      ProtectGuard_mbi P process mbi type w = Returned g w1 ->
      well_formed g) /\
  (forall g w, well_formed g ->
      well_formed (fst (final (Restore P (g, w)))) /\
      well_formed (fst (final (destroy P (g, w))))) /\
  (forall this other (w : World E Process), well_formed other ->
      let s' := final (move_assign (this, other, w)) in
      well_formed (fst (fst s')) /\ well_formed (snd (fst s'))) /\
  (forall this (w : World E Process),
      well_formed (fst (final (move_assign_self (this, w))))) /\
  (forall other (w : World E Process), well_formed other ->
      exists g s',
        move_construct (other, w) = Returned g s' /\
        well_formed g /\ well_formed (fst s')).
Proof.
  assert (Hclear : forall g : ProtectGuard Process,
             well_formed (set_old_protect 0 g)).
  { intros g _. reflexivity. }
  split; [| split; [| split; [| split]]].
  - intros process mbi type w g w1 Hret Hc.
    destruct (ProtectGuard_mbi_returned _ _ _ _ Hret)
      as (_ & _ & _ & _ & Hwf).
    apply Hwf, Hc.
  - intros g w Hwf. split.
    + destruct (Restore_shape P g w) as (_ & _ & [-> | ->] & _); auto.
    + destruct (destroy_shape P g w) as (_ & _ & [-> | ->] & _); auto.
  - intros this other w Hwf. cbn. rewrite guard_eta. split; auto.
  - intros this w. cbn. apply Hclear.
  - intros other w Hwf. exists other, (set_old_protect 0 other, w).
    split; [| split; [exact Hwf | apply Hclear]].
    unfold move_construct. unfold_monad. cbn. rewrite guard_eta.
    reflexivity.
Qed.

End WithPlatform.

(** X1 on a read-only page whose mutator grants: the destructor puts back
    [PAGE_READONLY]. *)
Lemma construct_then_destroy_witness :
  let P := sample_platform Grants false in
  let mbi := sample_region PAGE_READONLY in
  let g := {| process_ := 7; type_ := kWrite; can_read_or_write_ := false;
              old_protect_ := PAGE_READONLY; mbi_ := mbi |} in
  let w1 := {| env := tt;
               protect_log :=
                 [{| call_process := 7; call_mbi := mbi;
                     call_protect := PAGE_EXECUTE_READWRITE |}] |} in
  ProtectGuard_mbi P 7 mbi kWrite empty_world = Returned g w1 /\
  protect_log (snd (final (destroy P (g, w1)))) =
    [ {| call_process := 7; call_mbi := mbi;
         call_protect := PAGE_EXECUTE_READWRITE |};
      {| call_process := 7; call_mbi := mbi;
         call_protect := PAGE_READONLY |} ].
Proof.
  split; [reflexivity |].
  exact (construct_then_destroy (sample_platform Grants false) 7
           (sample_region PAGE_READONLY) kWrite empty_world eq_refl).
Defined.

(** X2 on a region whose snapshot carries no protection flags. *)
Lemma zero_previous_flags_never_restored_witness :
  let P := sample_platform Grants false in
  let mbi := sample_region 0 in
  IsBadProtect P mbi = false /\
  already_satisfied P kRead mbi = false /\
  exists g w1,
    ProtectGuard_mbi P 7 mbi kRead empty_world = Returned g w1 /\
    protect_log w1 =
      [{| call_process := 7; call_mbi := mbi;
          call_protect := PAGE_EXECUTE_READWRITE |}] /\
    forall w', Restore P (g, w') = Returned tt (g, w') /\
               destroy P (g, w') = Returned tt (g, w').
Proof.
  split; [reflexivity | split; [reflexivity |]].
  exact (zero_previous_flags_never_restored (sample_platform Grants false) 7
           (sample_region 0) kRead empty_world eq_refl eq_refl eq_refl).
Defined.

End GuardMore.

(** * More about the proxy *)

Module ProxyMore.

Import Proxy ProxyFacts.

Ltac split_calls :=
  repeat match goal with
         | |- context [let '(_, _) := ?x in _] => destruct x
         | |- context [if ?b then _ else _] => destruct b
         end.

Lemma env_ext {D} (e e' : Env D) :
  last_error e = last_error e' -> ext e = ext e' -> e = e'.
Proof. destruct e, e'; cbn; intros -> ->; reflexivity. Qed.

Section WithDevice.

Context {D : Type} (dev : Device D) (H : Hooks D).

(** X6.  A [QueryInterface] the wrapped object refuses: the caller gets the
    wrapped object's result and [*obj], the proxy is as before, nothing is
    released, and the last-error value is the one the wrapped object
    left. *)
Theorem QueryInterface_failure_passes_through (riid obj0 : Z) (s : State D)
  (hr : HRESULT) (obj : Z) (e1 : Env D) :
  dev_QueryInterface dev riid obj0 (env s) = ((hr, obj), e1) ->
  SUCCEEDED hr = false ->
  exists s',
    QueryInterface dev H riid obj0 s = Returned (hr, obj) s' /\
    proxy s' = proxy s /\
    log s' = log s ++ [EvDevice mQueryInterface hr (last_error e1)] /\
    last_error (env s') = last_error e1.
Proof.
  intros Hdev Hfail. rewrite QueryInterface_eq, Hdev. cbv zeta.
  rewrite Hfail. eexists. repeat split.
Qed.

(** X7.  No call changes the proxy's own address or the object it wraps,
    and a call other than [QueryInterface], [AddRef] and [Release] returns
    with the whole proxy object, count and liveness included, as it
    was. *)
Theorem proxy_object_frame (c : call) (s : State D) :
  let s' := final (perform dev H c s) in
  self (proxy s') = self (proxy s) /\
  device_ (proxy s') = device_ (proxy s) /\
  (counts_references c = false ->
   proxy s' = proxy s /\ returns (perform dev H c s) = true).
Proof.
  cbv zeta.
  destruct c; unfold perform, bind, ret; cbn [counts_references].
  - rewrite QueryInterface_eq. cbv zeta. split_calls; cbn;
      repeat split; discriminate.
  - rewrite AddRef_eq. cbv zeta. split_calls; cbn;
      repeat split; discriminate.
  - rewrite Release_eq. cbv zeta. split_calls; cbn;
      repeat split; discriminate.
  - rewrite GetDeviceState_eq. split_calls; cbn; repeat split.
  - rewrite GetDeviceData_eq. split_calls; cbn; repeat split.
  - rewrite forward_eq. split_calls; cbn; repeat split.
Qed.

(** X8.  With hooks that only observe, the proxy is transparent to the
    wrapped object: after a call through the proxy the wrapped object and
    the rest of the environment are as if the call had been made on the
    wrapped object directly, and, [AddRef] apart, so is the last-error
    value.  The call must reach the wrapped object ([Release] not stopped
    by the assertion) and a [QueryInterface] must not be answered with a
    foreign object. *)
Theorem passive_hooks_are_transparent (c : call) (s : State D) :
  passive H ->
  (c = CallRelease -> assertions H = false \/ 0 < refs_ (proxy s)) ->
  (forall riid obj, c = CallQueryInterface riid obj ->
     SUCCEEDED (fst (fst (dev_QueryInterface dev riid obj (env s)))) = false
     \/ snd (fst (dev_QueryInterface dev riid obj (env s))) =
        device_ (proxy s)) ->
  let e' := env (final (perform dev H c s)) in
  ext e' = ext (device_alone dev c (env s)) /\
  (c <> CallAddRef -> e' = device_alone dev c (env s)).
Proof.
  intros (Htrace & Hnoisy & Hstate & Hdata) Hrel Hqi. cbv zeta.
  destruct c; unfold perform; rewrite final_discard; cbn [device_alone].
  - specialize (Hqi riid obj eq_refl).
    rewrite QueryInterface_eq. cbv zeta.
    destruct (dev_QueryInterface dev riid obj (env s)) as [[hr o] e1].
    cbn [fst snd] in *.
    destruct (SUCCEEDED hr).
    + destruct Hqi as [Hqi | ->]; [discriminate |].
      rewrite Z.eqb_refl. cbn. rewrite Hnoisy.
      split; [reflexivity |]. intros _.
      apply env_ext; cbn; [reflexivity | apply Hnoisy].
    + cbn. rewrite Hnoisy. split; [reflexivity |]. intros _.
      apply env_ext; cbn; [reflexivity | apply Hnoisy].
  - rewrite AddRef_eq. cbv zeta.
    destruct (dev_AddRef dev (env s)) as [ret e1]. cbn.
    split; [apply Hnoisy | congruence].
  - specialize (Hrel eq_refl).
    rewrite Release_eq. cbv zeta.
    assert (Hok : assertions H && negb (0 <=? refs_ (proxy s) - 1) = false).
    { destruct Hrel as [-> | Hpos]; [reflexivity |].
      replace (0 <=? refs_ (proxy s) - 1) with true
        by (symmetry; apply Z.leb_le; lia).
      apply andb_false_r. }
    rewrite Hok.
    assert (Harg : set_last_error (last_error (env s))
                     (if refs_ (proxy s) - 1 =? 0
                      then trace_impl H "Called." (env s) else env s)
                   = env s).
    { apply env_ext; cbn; [reflexivity |].
      destruct (refs_ (proxy s) - 1 =? 0); [apply Htrace | reflexivity]. }
    rewrite Harg.
    destruct (dev_Release dev (env s)) as [ret e2]. cbn.
    rewrite Hnoisy. split; [reflexivity |]. intros _.
    apply env_ext; cbn; [reflexivity | apply Hnoisy].
  - rewrite GetDeviceState_eq.
    destruct (dev_GetDeviceState dev len_data data (env s)) as [r e1].
    specialize (Hstate len_data data r e1).
    destruct (OnGetDeviceState_Run H len_data data r e1) as [r' e2].
    cbn in *. split; [exact Hstate |]. intros _.
    apply env_ext; cbn; [reflexivity | exact Hstate].
  - rewrite GetDeviceData_eq.
    destruct (dev_GetDeviceData dev len_object_data rgdod in_out flags
                (env s)) as [r e1].
    specialize (Hdata len_object_data rgdod in_out flags r
                  (device_ (proxy s)) false e1).
    destruct (OnGetDeviceData_Run H len_object_data rgdod in_out flags r
                (device_ (proxy s)) false e1) as [r' e2].
    cbn in *. split; [exact Hdata |]. intros _.
    apply env_ext; cbn; [reflexivity | exact Hdata].
  - rewrite forward_eq.
    destruct (dev_call dev m args (env s)) as [r e1]. cbn.
    split; reflexivity.
Qed.

Lemma set_refs_same (p : DirectInputDevice8WProxy) (v : Z) :
  v = refs_ p -> set_refs v p = p.
Proof. intros ->. destruct p; reflexivity. Qed.

Lemma set_refs_twice (p : DirectInputDevice8WProxy) (v v' : Z) :
  set_refs v' (set_refs v p) = set_refs v' p.
Proof. reflexivity. Qed.

Lemma perform_counts (c : call) (s s1 : State D) :
  is_QueryInterface c = false ->
  perform dev H c s = Returned tt s1 ->
  deleted (proxy s1) = deleted (proxy s) ->
  proxy s1 = set_refs (refs_ (proxy s) + refs_delta c) (proxy s).
Proof.
  intros Hq. destruct c; try discriminate; unfold perform, bind, ret;
    cbn [refs_delta].
  - rewrite AddRef_eq. cbv zeta. split_calls.
    intros Heq _. inversion Heq; subst. reflexivity.
  - rewrite Release_eq. cbv zeta.
    destruct (assertions H && negb (0 <=? refs_ (proxy s) - 1));
      [discriminate |].
    destruct (dev_Release dev _) as [r e2].
    destruct (r =? 0); intros Heq Hd; inversion Heq; subst; cbn in *.
    + destruct (proxy s) as [a b c d]. cbn in *. subst d. reflexivity.
    + reflexivity.
  - rewrite GetDeviceState_eq. split_calls.
    intros Heq _. inversion Heq; subst. cbn.
    symmetry. apply set_refs_same. lia.
  - rewrite GetDeviceData_eq. split_calls.
    intros Heq _. inversion Heq; subst. cbn.
    symmetry. apply set_refs_same. lia.
  - rewrite forward_eq. split_calls.
    intros Heq _. inversion Heq; subst. cbn.
    symmetry. apply set_refs_same. lia.
Qed.

(** X9.  [refs_] counts the client's references.  After a client's calls,
    none of them [QueryInterface], that all returned and did not end in
    [delete this], the proxy is as it was except for [refs_], which has
    grown by the number of [AddRef] calls less the number of [Release]
    calls; after as many of the one as of the other the proxy is as it
    was. *)
Theorem refs_count_the_calls (cs : list call) (s : State D) :
  forallb (fun c => negb (is_QueryInterface c)) cs = true ->
  returns (run dev H cs s) = true ->
  deleted (proxy (final (run dev H cs s))) = false ->
  proxy (final (run dev H cs s)) =
    set_refs (refs_ (proxy s) + balance cs) (proxy s) /\
  (balance cs = 0 -> proxy (final (run dev H cs s)) = proxy s).
Proof.
  intros Hq Hret Hlive.
  assert (Hcount : proxy (final (run dev H cs s)) =
                   set_refs (refs_ (proxy s) + balance cs) (proxy s)).
  { revert s Hq Hret Hlive.
    induction cs as [| c cs IH]; intros s Hq Hret Hlive.
    - cbn. symmetry. apply set_refs_same. lia.
    - destruct (deleted (proxy s)) eqn:Hd.
      { rewrite run_deleted in Hlive by exact Hd. cbn in Hlive. congruence. }
      cbn [forallb] in Hq. apply andb_prop in Hq. destruct Hq as [Hc Hq].
      apply negb_true_iff in Hc.
      rewrite run_live in * by exact Hd.
      destruct (perform dev H c s) as [[] s1 | e s1 | s1] eqn:Hp;
        try discriminate.
      destruct (deleted (proxy s1)) eqn:Hd1.
      { rewrite run_deleted in Hlive by exact Hd1. cbn in Hlive.
        congruence. }
      rewrite (IH s1 Hq Hret Hlive).
      rewrite (perform_counts c s Hc Hp) by congruence.
      cbn [balance fold_right refs_ set_refs]. fold (balance cs).
      rewrite set_refs_twice. f_equal. lia. }
  split; [exact Hcount |].
  intros Hzero. rewrite Hcount. apply set_refs_same. lia.
Qed.

End WithDevice.

(** X6 on the sample object asked for an interface it does not have. *)
Lemma QueryInterface_failure_passes_through_witness :
  let H := clobbering_hooks 0 true in
  let s := sample_state 1 1 in
  SUCCEEDED E_NOINTERFACE = false /\
  exists s',
    QueryInterface sample_device H 3 0 s = Returned (E_NOINTERFACE, 0) s' /\
    proxy s' = proxy s /\
    log s' = [EvDevice mQueryInterface E_NOINTERFACE 5] /\
    last_error (env s') = 5.
Proof.
  split; [reflexivity |].
  exact (QueryInterface_failure_passes_through sample_device
           (clobbering_hooks 0 true) 3 0 (sample_state 1 1)
           eq_refl eq_refl).
Defined.

Lemma clobbering_hooks_passive (v : DWORD) (asserts : bool) :
  passive (clobbering_hooks v asserts).
Proof. repeat split. Defined.

(** X8 on a [Release] whose [Cleanup] trace overwrites the last-error
    value: the environment ends as the wrapped [Release] alone leaves
    it. *)
Lemma passive_hooks_are_transparent_witness :
  let H := clobbering_hooks 0 true in
  let s := sample_state 1 2 in
  passive H /\
  env (final (perform sample_device H CallRelease s)) =
    {| last_error := 5; ext := 1 |}.
Proof.
  split; [apply clobbering_hooks_passive |].
  refine (proj2 (@passive_hooks_are_transparent _ sample_device
                   (clobbering_hooks 0 true) CallRelease (sample_state 1 2)
                   (clobbering_hooks_passive 0 true) _ _) _).
  - intros _. right. reflexivity.
  - intros riid obj Hc. discriminate Hc.
  - discriminate.
Defined.

(** X9 on a client that takes two references and gives two back, with
    other calls in between, on a wrapped object that is referenced
    elsewhere. *)
Lemma refs_count_the_calls_witness :
  let H := clobbering_hooks 0 true in
  let s := sample_state 1 2 in
  let cs := [CallAddRef; CallOther mPoll []; CallAddRef; CallRelease;
             CallGetDeviceState 16 0x4000; CallRelease] in
  returns (run sample_device H cs s) = true /\
  deleted (proxy (final (run sample_device H cs s))) = false /\
  proxy (final (run sample_device H cs s)) =
    set_refs (refs_ (proxy s) + balance cs) (proxy s) /\
  (balance cs = 0 -> proxy (final (run sample_device H cs s)) = proxy s).
Proof.
  split; [reflexivity | split; [reflexivity |]].
  exact (@refs_count_the_calls Z sample_device (clobbering_hooks 0 true)
           [CallAddRef; CallOther mPoll []; CallAddRef; CallRelease;
            CallGetDeviceState 16 0x4000; CallRelease]
           (sample_state 1 2) eq_refl eq_refl eq_refl).
Defined.

End ProxyMore.

(** * More about the dumper's loops *)

Module DumpMore.

Import Dump DumpFacts.

Lemma final_bind {S A B} (m : M S A) (k : A -> M S B) (s : S) :
  final (bind m k s) =
  match m s with
  | Returned a s1 => final (k a s1)
  | Thrown _ s1 => s1
  | Aborted s1 => s1
  end.
Proof. unfold bind. destruct (m s); reflexivity. Qed.

(** ** Relations the loops keep *)

Section Relating.

Variable g_quiet : bool.
Variable R : State -> State -> Prop.
Variable allowed : step -> bool.

Hypothesis R_refl : forall s, R s s.
Hypothesis R_trans : forall s1 s2 s3, R s1 s2 -> R s2 s3 -> R s1 s3.
Hypothesis R_write : forall o, relates R (write g_quiet o).
Hypothesis R_attempt :
  forall st r, allowed st = true -> relates R (attempt st r).
Hypothesis R_attempt_value :
  forall A st (r : exn + A), allowed st = true ->
    relates R (attempt_value st r).

Lemma relates_ret {A} (a : A) : relates R (ret a).
Proof. intros s. apply R_refl. Qed.

Lemma relates_bind {A B} (m : M State A) (k : A -> M State B) :
  relates R m -> (forall a, relates R (k a)) -> relates R (bind m k).
Proof.
  intros Hm Hk s. rewrite final_bind. specialize (Hm s).
  destruct (m s) as [a s1 | e s1 | s1]; cbn in *; auto.
  eapply R_trans; [exact Hm | apply Hk].
Qed.

Lemma relates_try {A} (m : M State A) (h : exn -> M State A) :
  relates R m -> (forall e, relates R (h e)) ->
  relates R (try_catch_std m h).
Proof.
  intros Hm Hh s. unfold try_catch_std. specialize (Hm s).
  destruct (m s) as [a s1 | e s1 | s1]; cbn in *; auto.
  destruct (is_std_exception e); cbn; auto.
  eapply R_trans; [exact Hm | apply Hh].
Qed.

Lemma relates_for_each {A} (body : A -> M State unit)
  (at_end : M State unit) (l : list A) :
  (forall a, relates R (body a)) -> relates R at_end ->
  relates R (for_each body l at_end).
Proof.
  intros Hbody Hend. induction l as [| a l IH]; [exact Hend |].
  cbn [for_each]. apply relates_bind; auto.
Qed.

Ltac relate_with leaf :=
  repeat first
    [ leaf
    | apply relates_ret
    | apply R_write
    | apply R_attempt
    | apply R_attempt_value
    | apply relates_try; [| intros ?]
    | apply relates_for_each; [intros ? |]
    | apply relates_bind; [| intros ?] ].

Ltac relate :=
  repeat first
    [ apply relates_ret
    | apply R_write
    | apply R_attempt
    | apply R_attempt_value
    | apply relates_try; [| intros ?]
    | apply relates_for_each; [intros ? |]
    | apply relates_bind; [| intros ?] ].

Variable g_strings : bool.

Lemma DumpThreads_relates (p : ProcessEntry) :
  (forall st, inner_step g_quiet g_strings st = true -> allowed st = true) ->
  relates R (DumpThreads g_quiet p).
Proof.
  intros Hin.
  unfold DumpThreads, DumpThreadEntry, WriteNewline, WriteNormal,
         WriteNamedHex.
  relate. apply Hin. reflexivity.
Qed.

Lemma DumpRegions_relates (p : ProcessEntry) :
  (forall st, inner_step g_quiet g_strings st = true -> allowed st = true) ->
  relates R (DumpRegions g_quiet p).
Proof.
  intros Hin.
  unfold DumpRegions, WriteNewline, WriteNormal, WriteNamedHex.
  relate. apply Hin. reflexivity.
Qed.

Lemma DumpPeFile_relates (m : Module) :
  (forall st, inner_step g_quiet g_strings st = true -> allowed st = true) ->
  relates R (DumpPeFile g_quiet g_strings m).
Proof.
  intros Hin. unfold DumpPeFile, WriteNewline, WriteNormal.
  destruct (k100MB <? pe_size m);
    destruct (negb g_quiet && g_strings) eqn:Hs;
    relate; apply Hin; cbn [inner_step]; auto.
Qed.

Lemma DumpModules_relates (p : ProcessEntry) :
  (forall st, inner_step g_quiet g_strings st = true -> allowed st = true) ->
  relates R (DumpModules g_quiet g_strings p).
Proof.
  intros Hin.
  unfold DumpModules, DumpModules_body, WriteNewline, WriteNormal,
         WriteNamedHex, WriteNamedNormal.
  relate; try (apply Hin; reflexivity).
  match goal with
  | |- relates R (if ?b then _ else _) => destruct b
  end; [apply DumpPeFile_relates, Hin | apply relates_ret].
Qed.

(** What [DumpProcessEntry] does once the process is open. *)
Lemma opened_relates (memonly : bool) (p : ProcessEntry) :
  (forall st, may_attempt g_quiet g_strings memonly st = true ->
              not_open st = true -> allowed st = true) ->
  relates R
    ((if negb memonly then
        try_catch_std
          (WriteNewline g_quiet ;;;
           path <- attempt_value (StGetPath (entry_id p)) (get_path p) ;;
           WriteNormal g_quiet (String.append "Path (Win32): " path) 0)
          (fun _ =>
             WriteNewline g_quiet ;;;
             WriteNormal g_quiet
               "WARNING! Could not get Win32 path to process." 0) ;;;
        path <- attempt_value (StGetPathNative (entry_id p))
                  (get_path_native p) ;;
        WriteNormal g_quiet (String.append "Path (NT): " path) 0 ;;;
        wow <- attempt_value (StIsWoW64 (entry_id p)) (is_wow64 p) ;;
        WriteNormal g_quiet
          (String.append "WoW64: " (if wow then "Yes" else "No")) 0 ;;;
        DumpModules g_quiet g_strings p ;;;
        DumpRegions g_quiet p
      else ret tt) ;;;
     attempt (StDumpMemory (entry_id p)) (dump_memory p)).
Proof.
  intros Hmay. unfold WriteNewline, WriteNormal.
  destruct memonly; cbn [negb].
  - relate. apply Hmay; reflexivity.
  - assert (Hin : forall st, inner_step g_quiet g_strings st = true ->
                             allowed st = true).
    { intros st Hst. destruct st; cbn in *; try discriminate;
        apply Hmay; auto. }
    relate_with ltac:(first [ apply DumpModules_relates, Hin
                            | apply DumpRegions_relates, Hin ]);
      apply Hmay; reflexivity.
Qed.

Lemma DumpProcessEntry_relates (memonly : bool) (p : ProcessEntry) :
  (forall st, may_attempt g_quiet g_strings memonly st = true ->
              allowed st = true) ->
  relates R (DumpProcessEntry g_quiet g_strings memonly p).
Proof.
  intros Hmay. unfold DumpProcessEntry.
  repeat (apply relates_bind; [apply R_write | intros _]).
  apply relates_bind.
  { destruct memonly; cbn [negb]; [apply relates_ret |].
    apply DumpThreads_relates.
    intros st Hst. apply Hmay. destruct st; cbn in *; auto. }
  intros _. apply relates_bind.
  { apply relates_try; [| intros ?]; unfold WriteNewline, WriteNormal;
      relate. apply Hmay. reflexivity. }
  intros [|]; [| apply relates_ret].
  apply opened_relates. intros st Hst _. apply Hmay, Hst.
Qed.

Lemma DumpProcesses_relates (memonly : bool) (processes : list ProcessEntry) :
  (forall st, may_attempt g_quiet g_strings memonly st = true ->
              allowed st = true) ->
  relates R (DumpProcesses g_quiet g_strings memonly processes).
Proof.
  intros Hmay. unfold DumpProcesses, WriteNewline, WriteNormal.
  relate_with ltac:(apply DumpProcessEntry_relates, Hmay).
Qed.

End Relating.

Lemma extends_refl (allowed : step -> bool) (s : State) :
  extends_steps allowed s s.
Proof. exists []. rewrite app_nil_r. split; reflexivity. Qed.

Lemma extends_trans (allowed : step -> bool) (s1 s2 s3 : State) :
  extends_steps allowed s1 s2 -> extends_steps allowed s2 s3 ->
  extends_steps allowed s1 s3.
Proof.
  intros (d1 & H1 & Ha1) (d2 & H2 & Ha2). exists (d1 ++ d2).
  rewrite H2, H1, app_assoc, forallb_app, Ha1, Ha2. split; reflexivity.
Qed.

Lemma extends_write (allowed : step -> bool) (g_quiet : bool) (o : output) :
  relates (extends_steps allowed) (write g_quiet o).
Proof. intros s. exists []. cbn. rewrite app_nil_r. split; reflexivity. Qed.

Lemma extends_attempt (allowed : step -> bool) (st : step)
  (r : option exn) :
  allowed st = true -> relates (extends_steps allowed) (attempt st r).
Proof.
  intros Hst s. exists [st]. destruct r; cbn; rewrite Hst; split; reflexivity.
Qed.

Lemma extends_attempt_value (allowed : step -> bool) (A : Type) (st : step)
  (r : exn + A) :
  allowed st = true -> relates (extends_steps allowed) (attempt_value st r).
Proof.
  intros Hst s. exists [st]. destruct r; cbn; rewrite Hst; split; reflexivity.
Qed.

(** X10.  Whatever fails, [DumpProcesses] only adds calls that its flags
    enable: with [--memonly] nothing but process opens and memory dumps;
    strings are dumped only with [--strings] and without [--quiet]. *)
Theorem DumpProcesses_calls_follow_flags (g_quiet g_strings memonly : bool)
  (processes : list ProcessEntry) (s : State) :
  exists delta,
    steps (final (DumpProcesses g_quiet g_strings memonly processes s)) =
      steps s ++ delta /\
    forallb (may_attempt g_quiet g_strings memonly) delta = true.
Proof.
  apply (DumpProcesses_relates
           (R := extends_steps (may_attempt g_quiet g_strings memonly))
           (may_attempt g_quiet g_strings memonly)).
  - apply extends_refl.
  - apply extends_trans.
  - apply extends_write.
  - apply extends_attempt.
  - apply extends_attempt_value.
  - auto.
Qed.

Ltac extends_side :=
  first [ apply extends_refl | apply extends_trans | apply extends_write
        | apply extends_attempt | apply extends_attempt_value ].

Lemma not_open_tried (s s' : State) :
  extends_steps not_open s s' -> processes_tried s' = processes_tried s.
Proof.
  intros (delta & Hsteps & Hall). unfold processes_tried.
  rewrite Hsteps, pick_app.
  assert (Hnone : pick opened_pid delta = []).
  { clear Hsteps. induction delta as [| st delta IH]; [reflexivity |].
    cbn in Hall. apply andb_prop in Hall. destruct Hall as [Hst Hall].
    destruct st; cbn in *; try discriminate; apply IH, Hall. }
  rewrite Hnone, app_nil_r. reflexivity.
Qed.

(** A step that makes no process open leaves the property of the next
    lemma as it finds it. *)
Lemma tried_after {A B} (pid : Z) (m : M State A) (k : A -> M State B) :
  relates (extends_steps not_open) m ->
  (forall a s1,
      processes_tried (final (k a s1)) = processes_tried s1 ++ [pid] \/
      returns (k a s1) = false /\
      processes_tried (final (k a s1)) = processes_tried s1) ->
  forall s,
    processes_tried (final (bind m k s)) = processes_tried s ++ [pid] \/
    returns (bind m k s) = false /\
    processes_tried (final (bind m k s)) = processes_tried s.
Proof.
  intros Hm Hk s. pose proof (not_open_tried (Hm s)) as Hsame.
  unfold bind. destruct (m s) as [a s1 | e s1 | s1]; cbn in Hsame.
  - rewrite <- Hsame. apply Hk.
  - right. split; [reflexivity | exact Hsame].
  - right. split; [reflexivity | exact Hsame].
Qed.

Section Prefix.

Variables (g_quiet g_strings memonly : bool).

Lemma relates_not_open_write (o : output) :
  relates (extends_steps not_open) (write g_quiet o).
Proof. apply extends_write. Qed.

(** The attempt to open the process, caught or not, counts as tried, and
    nothing after it opens another. *)
Lemma tried_open {B} (p : ProcessEntry) (k : bool -> M State B) :
  (forall b, relates (extends_steps not_open) (k b)) ->
  forall s,
    processes_tried
      (final
         (bind
            (try_catch_std
               (attempt (StOpenProcess (entry_id p)) (process_ctor p) ;;;
                ret true)
               (fun _ =>
                  WriteNewline g_quiet ;;;
                  WriteNormal g_quiet
                    "Could not open process for further inspection." 0 ;;;
                  WriteNewline g_quiet ;;;
                  ret false))
            k s)) =
    processes_tried s ++ [entry_id p].
Proof.
  intros Hk s. rewrite final_bind.
  assert (Hopen :
    processes_tried
      (final
         (try_catch_std
            (attempt (StOpenProcess (entry_id p)) (process_ctor p) ;;;
             ret true)
            (fun _ =>
               WriteNewline g_quiet ;;;
               WriteNormal g_quiet
                 "Could not open process for further inspection." 0 ;;;
               WriteNewline g_quiet ;;;
               ret false) s)) =
    processes_tried s ++ [entry_id p]).
  { unfold try_catch_std, attempt, WriteNewline, WriteNormal, write.
    unfold_monad.
    destruct (process_ctor p) as [e |]; cbn;
      [destruct (is_std_exception e); cbn |];
      unfold processes_tried; cbn; rewrite pick_app; reflexivity. }
  destruct (try_catch_std _ _ s) as [b s1 | e s1 | s1]; cbn [final] in *;
    try exact Hopen.
  rewrite (not_open_tried (Hk b s1)). exact Hopen.
Qed.

(** One process entry adds its id to the processes tried, or fails before
    it gets to open the process. *)
Lemma DumpProcessEntry_tried (p : ProcessEntry) (s : State) :
  let o := DumpProcessEntry g_quiet g_strings memonly p s in
  processes_tried (final o) = processes_tried s ++ [entry_id p] \/
  returns o = false /\ processes_tried (final o) = processes_tried s.
Proof.
  cbv zeta. unfold DumpProcessEntry. revert s.
  repeat (apply tried_after; [apply relates_not_open_write | intros _]).
  apply tried_after.
  { destruct memonly; cbn [negb].
    - intros s. apply extends_refl.
    - apply (DumpThreads_relates (R := extends_steps not_open) not_open)
        with (g_strings := g_strings); try extends_side.
      intros st Hst; destruct st; cbn in *; auto; discriminate. }
  intros _ s. left. revert s. apply tried_open.
  intros [|].
  - apply (opened_relates (R := extends_steps not_open) not_open);
      try extends_side.
    auto.
  - intros s. apply extends_refl.
Qed.

Lemma for_each_entry_prefix (processes : list ProcessEntry) :
  forall s,
    let o := for_each (DumpProcessEntry g_quiet g_strings memonly) processes
               (ret tt) s in
    exists k,
      (k <= List.length processes)%nat /\
      processes_tried (final o) =
        processes_tried s ++ map entry_id (firstn k processes) /\
      (returns o = true -> k = List.length processes).
Proof.
  cbv zeta. induction processes as [| p ps IH]; intros s.
  - exists 0%nat. cbn. rewrite app_nil_r. auto.
  - cbn [for_each]. pose proof (DumpProcessEntry_tried p s) as Hp.
    cbv zeta in Hp. unfold bind.
    destruct (DumpProcessEntry g_quiet g_strings memonly p s)
      as [[] s1 | e s1 | s1]; cbn [final returns] in *.
    + destruct Hp as [Hp | [Hp _]]; [| discriminate].
      destruct (IH s1) as (k & Hk & Htried & Hret).
      exists (S k). cbn. rewrite Htried, Hp, <- app_assoc.
      repeat split; [lia | auto].
    + destruct Hp as [Hp | [_ Hp]].
      * exists 1%nat. cbn. rewrite Hp.
        repeat split; [lia | discriminate].
      * exists 0%nat. cbn. rewrite Hp, app_nil_r.
        repeat split; [lia | discriminate].
    + destruct Hp as [Hp | [_ Hp]].
      * exists 1%nat. cbn. rewrite Hp.
        repeat split; [lia | discriminate].
      * exists 0%nat. cbn. rewrite Hp, app_nil_r.
        repeat split; [lia | discriminate].
Qed.

(** X12.  The process entries [DumpProcesses] begins to inspect are the
    first [k] of its list, in order; when it returns they are all of them;
    when an exception ends it, none after the failing entry is looked
    at. *)
Theorem DumpProcesses_tries_a_prefix (processes : list ProcessEntry)
  (s : State) :
  let o := DumpProcesses g_quiet g_strings memonly processes s in
  exists k,
    (k <= List.length processes)%nat /\
    processes_tried (final o) =
      processes_tried s ++ map entry_id (firstn k processes) /\
    (returns o = true -> k = List.length processes).
Proof.
  exact (for_each_entry_prefix processes
           (final ((WriteNewline g_quiet ;;;
                    WriteNormal g_quiet "Processes:" 0) s))).
Qed.

End Prefix.

(** ** Exact call sequences *)

Lemma calls_ret {A} (a : A) : calls (ret a) a [].
Proof. intros s. exists s. rewrite app_nil_r. split; reflexivity. Qed.

Lemma calls_bind {A B} (m : M State A) (k : A -> M State B) (a : A) (b : B)
  (d d' : list step) :
  calls m a d -> calls (k a) b d' -> calls (bind m k) b (d ++ d').
Proof.
  intros Hm Hk s. destruct (Hm s) as (s1 & Hrun & Hd).
  destruct (Hk s1) as (s2 & Hrun' & Hd').
  exists s2. unfold bind. rewrite Hrun, Hrun', Hd', Hd, app_assoc.
  split; reflexivity.
Qed.

Lemma calls_eq {A} (m : M State A) (a : A) (d d' : list step) :
  calls m a d -> d = d' -> calls m a d'.
Proof. intros Hm <-. exact Hm. Qed.

Lemma calls_write (g_quiet : bool) (o : output) :
  calls (write g_quiet o) tt [].
Proof.
  intros s. eexists. split; [reflexivity |]. cbn. rewrite app_nil_r.
  reflexivity.
Qed.

Lemma calls_attempt (st : step) : calls (attempt st None) tt [st].
Proof. intros s. eexists. split; reflexivity. Qed.

Lemma calls_for_each_writes {A} (body : A -> M State unit)
  (at_end : M State unit) (d : list step) (l : list A) :
  (forall a, calls (body a) tt []) -> calls at_end tt d ->
  calls (for_each body l at_end) tt d.
Proof.
  intros Hbody Hend. induction l as [| a l IH]; [exact Hend |].
  cbn [for_each]. eapply calls_eq; [eapply calls_bind; eauto | reflexivity].
Qed.

Ltac call_steps :=
  first
    [ apply calls_ret
    | apply calls_write
    | apply calls_attempt
    | eapply calls_bind; [solve [call_steps] | call_steps]
    | idtac ].

Lemma DumpThreads_calls (g_quiet : bool) (p : ProcessEntry) :
  thread_list_fails p = None ->
  calls (DumpThreads g_quiet p) tt [StThreadList (entry_id p)].
Proof.
  intros Hend.
  unfold DumpThreads, DumpThreadEntry, WriteNewline, WriteNormal,
         WriteNamedHex.
  rewrite Hend.
  eapply calls_eq.
  { call_steps. apply calls_for_each_writes.
    - intros t. eapply calls_eq; [call_steps | reflexivity].
    - apply calls_attempt. }
  reflexivity.
Qed.

(** What follows a step that returns after the calls [d]. *)
Lemma after_calls {A B} (m : M State A) (a : A) (d d' : list step)
  (k : A -> M State B) (Q : outcome State B -> Prop) :
  calls m a d ->
  (forall s1, steps (final (k a s1)) = steps s1 ++ d' /\ Q (k a s1)) ->
  forall s,
    steps (final (bind m k s)) = steps s ++ d ++ d' /\ Q (bind m k s).
Proof.
  intros Hm Hk s. destruct (Hm s) as (s1 & Hrun & Hd).
  unfold bind. rewrite Hrun. destruct (Hk s1) as [Hsteps HQ].
  rewrite Hsteps, Hd, app_assoc. split; [reflexivity | exact HQ].
Qed.

Lemma after_write {B} (g_quiet : bool) (o : output) (d : list step)
  (k : unit -> M State B) (Q : outcome State B -> Prop) :
  (forall s1, steps (final (k tt s1)) = steps s1 ++ d /\ Q (k tt s1)) ->
  forall s,
    steps (final (bind (write g_quiet o) k s)) = steps s ++ d /\
    Q (bind (write g_quiet o) k s).
Proof.
  intros Hk s.
  exact (Hk {| wcout := if g_quiet then wcout s else wcout s ++ [o];
               steps := steps s |}).
Qed.

Section OneTarget.

Variables (g_quiet g_strings : bool).

(** X13.  A process that cannot be opened.  If the constructor throws a
    [std::exception], the entry is reported and [DumpProcessEntry] returns;
    otherwise the exception leaves [DumpProcessEntry].  Either way the
    open is the last call made for the entry: no path, module, region or
    memory call follows. *)
Theorem unopenable_process (memonly : bool) (p : ProcessEntry) (e : exn)
  (s : State) :
  process_ctor p = Some e ->
  memonly = true \/ thread_list_fails p = None ->
  let o := DumpProcessEntry g_quiet g_strings memonly p s in
  steps (final o) =
    steps s ++ (if memonly then [] else [StThreadList (entry_id p)]) ++
    [StOpenProcess (entry_id p)] /\
  caught_or_thrown e o.
Proof.
  intros Hopen Hthreads. cbv zeta.
  unfold DumpProcessEntry, WriteNewline, WriteNormal, WriteNamedHex,
         WriteNamedNormal.
  rewrite Hopen. revert s.
  repeat apply after_write with (Q := caught_or_thrown e).
  apply after_calls
    with (Q := caught_or_thrown e) (a := tt)
         (d := if memonly then [] else [StThreadList (entry_id p)])
         (d' := [StOpenProcess (entry_id p)]).
  { destruct memonly; cbn [negb]; [apply calls_ret |].
    destruct Hthreads as [Hm | Hthreads]; [discriminate |].
    apply DumpThreads_calls, Hthreads. }
  intros s. unfold caught_or_thrown, try_catch_std, attempt, write.
  unfold_monad. cbn.
  destruct (is_std_exception e); cbn; split; eauto.
Qed.

(** X14.  A module whose DOS header does not parse.  After the [PeFile]
    and [DosHeader] constructors nothing more is attempted on it: no NT
    headers, no part of the PE file.  A [std::exception] is reported and
    the loop body returns; anything else leaves it. *)
Theorem invalid_dos_header_skips_module (m : Module) (e : exn) (s : State) :
  pe_file_ctor m = None ->
  dos_header_ctor m = Some e ->
  let o := DumpModules_body g_quiet g_strings m s in
  steps (final o) =
    steps s ++ [StPeFile (module_handle m); StDosHeader (module_handle m)] /\
  caught_or_thrown e o.
Proof.
  intros Hpe Hdos. cbv zeta.
  unfold caught_or_thrown, DumpModules_body, WriteNewline, WriteNormal,
         WriteNamedHex, WriteNamedNormal, try_catch_std, attempt, write.
  rewrite Hpe, Hdos. unfold_monad. cbn.
  destruct (is_std_exception e); cbn; rewrite <- app_assoc;
    split; eauto.
Qed.

(** X15.  [DumpPeFile] dumps the parts in its fixed order and stops at the
    first one that throws: the parts attempted are those up to and including
    it, its exception leaves [DumpPeFile], and no later part, the handling
    of warnings included, is reached. *)
Theorem DumpPeFile_stops_at_first_failure (m : Module) (s : State) :
  let o := DumpPeFile g_quiet g_strings m s in
  let '(done, r) :=
    until_failure (dump_part m) (parts_in_order g_quiet g_strings) in
  steps (final o) =
    steps s ++ map (fun p => StDumpPart p (module_handle m)) done /\
  match r with
  | None => returns o = true
  | Some e => exists s', o = Thrown e s'
  end.
Proof.
  cbv zeta.
  unfold DumpPeFile, parts_in_order, WriteNewline, WriteNormal, attempt,
         write.
  unfold_monad.
  destruct (k100MB <? pe_size m), (negb g_quiet && g_strings);
    cbn -[k100MB];
    repeat match goal with
           | |- context [dump_part m ?p] =>
               destruct (dump_part m p);
               cbn;
               [ split; [rewrite <- ?app_assoc; reflexivity | eauto] | ]
           end;
    split; rewrite <- ?app_assoc; reflexivity.
Qed.

Lemma k100MB_value : k100MB = 104857600.
Proof. reflexivity. Qed.

(** X16.  Without [--quiet], what [DumpPeFile] itself writes is the
    architecture line and, if and only if the file is larger than
    104857600 bytes, the large-file warning; a file of exactly that size
    gets none.  This is written before any part is dumped, so also when a
    part fails. *)
Theorem DumpPeFile_large_file_warning (m : Module) (s : State) :
  wcout (final (DumpPeFile false g_strings m s)) =
  wcout s ++
  [Newline;
   Normal (if pe_is64 m then "64-Bit File: Yes" else "64-Bit File: No") 1] ++
  (if 104857600 <? pe_size m
   then [Newline; Normal "WARNING! File is over 100MB." 0]
   else []).
Proof.
  rewrite <- k100MB_value.
  unfold DumpPeFile, WriteNewline, WriteNormal, attempt, write.
  unfold_monad.
  destruct (k100MB <? pe_size m), g_strings;
    cbn -[k100MB];
    repeat match goal with
           | |- context [dump_part m ?p] =>
               destruct (dump_part m p);
               cbn;
               [ rewrite <- ?app_assoc; reflexivity | ]
           end;
    rewrite <- ?app_assoc; reflexivity.
Qed.

End OneTarget.

(** X13 on a process entry whose constructor throws [hadesmem::Error]. *)
Lemma unopenable_process_witness :
  let p := sample_entry 1 (Some (Error "OpenProcess failed."))
             [sample_module 0x400000 None None] in
  let o := DumpProcessEntry false false false p start in
  process_ctor p = Some (Error "OpenProcess failed.") /\
  steps (final o) = [StThreadList 1; StOpenProcess 1] /\
  returns o = true.
Proof.
  split; [reflexivity |].
  exact (@unopenable_process false false false
           (sample_entry 1 (Some (Error "OpenProcess failed."))
              [sample_module 0x400000 None None])
           (Error "OpenProcess failed.") start eq_refl (or_intror eq_refl)).
Defined.

(** X14 on a module without a valid DOS header. *)
Lemma invalid_dos_header_skips_module_witness :
  let m := sample_module 0x400000 None (Some (Error "Invalid DOS header.")) in
  let o := DumpModules_body false false m start in
  pe_file_ctor m = None /\
  dos_header_ctor m = Some (Error "Invalid DOS header.") /\
  steps (final o) = [StPeFile 0x400000; StDosHeader 0x400000] /\
  returns o = true.
Proof.
  split; [reflexivity | split; [reflexivity |]].
  exact (@invalid_dos_header_skips_module false false
           (sample_module 0x400000 None
              (Some (Error "Invalid DOS header.")))
           (Error "Invalid DOS header.") start eq_refl eq_refl).
Defined.

(** ** The output stream does not steer the loops *)

Lemma agree_ret {A} (a : A) : agree (ret a) (ret a).
Proof. intros s1 s2 Hs. split; [exact Hs | reflexivity]. Qed.

Lemma agree_write (q1 q2 : bool) (o1 o2 : output) :
  agree (write q1 o1) (write q2 o2).
Proof. intros s1 s2 Hs. split; [exact Hs | reflexivity]. Qed.

Lemma agree_attempt (st : step) (r : option exn) :
  agree (attempt st r) (attempt st r).
Proof.
  intros s1 s2 Hs. unfold attempt. unfold_monad.
  destruct r; cbn; rewrite Hs; split; reflexivity.
Qed.

Lemma agree_attempt_value {A} (st : step) (r : exn + A) :
  agree (attempt_value st r) (attempt_value st r).
Proof.
  intros s1 s2 Hs. unfold attempt_value. unfold_monad.
  destruct r; cbn; rewrite Hs; split; reflexivity.
Qed.

Lemma agree_bind {A B} (m1 m2 : M State A) (k1 k2 : A -> M State B) :
  agree m1 m2 -> (forall a, agree (k1 a) (k2 a)) ->
  agree (bind m1 k1) (bind m2 k2).
Proof.
  intros Hm Hk s1 s2 Hs. unfold bind.
  destruct (Hm s1 s2 Hs) as [Hsteps Hend].
  destruct (m1 s1) as [a t1 | e t1 | t1], (m2 s2) as [b t2 | e' t2 | t2];
    cbn in *; try contradiction.
  - subst b. apply Hk. exact Hsteps.
  - split; assumption.
  - split; assumption.
Qed.

Lemma agree_try {A} (m1 m2 : M State A) (h1 h2 : exn -> M State A) :
  agree m1 m2 -> (forall e, agree (h1 e) (h2 e)) ->
  agree (try_catch_std m1 h1) (try_catch_std m2 h2).
Proof.
  intros Hm Hh s1 s2 Hs. unfold try_catch_std.
  destruct (Hm s1 s2 Hs) as [Hsteps Hend].
  destruct (m1 s1) as [a t1 | e t1 | t1], (m2 s2) as [b t2 | e' t2 | t2];
    cbn in *; try contradiction.
  - split; assumption.
  - subst e'. destruct (is_std_exception e).
    + apply Hh. exact Hsteps.
    + split; [exact Hsteps | reflexivity].
  - split; assumption.
Qed.

Lemma agree_for_each {A} (b1 b2 : A -> M State unit) (l : list A)
  (e1 e2 : M State unit) :
  (forall a, agree (b1 a) (b2 a)) -> agree e1 e2 ->
  agree (for_each b1 l e1) (for_each b2 l e2).
Proof.
  intros Hb He. induction l as [| a l IH]; cbn [for_each].
  - exact He.
  - apply agree_bind; [apply Hb | intros _; exact IH].
Qed.

Ltac agree_with leaf :=
  unfold WriteNewline, WriteNormal, WriteNamedHex, WriteNamedNormal;
  repeat first
    [ leaf
    | apply agree_write
    | apply agree_attempt
    | apply agree_attempt_value
    | apply agree_ret
    | match goal with
      | |- agree (if ?c then _ else _) _ => destruct c
      end
    | apply agree_for_each; [intros ? |]
    | apply agree_try; [| intros ?]
    | apply agree_bind; [| intros ?] ].

Section Agreement.

Variables (q1 s1 q2 s2 : bool).

(** Both runs dump strings, or neither does. *)
Hypothesis same_strings : negb q1 && s1 = negb q2 && s2.

Lemma DumpThreads_agree (p : ProcessEntry) :
  agree (DumpThreads q1 p) (DumpThreads q2 p).
Proof. unfold DumpThreads, DumpThreadEntry. agree_with fail. Qed.

Lemma DumpRegions_agree (p : ProcessEntry) :
  agree (DumpRegions q1 p) (DumpRegions q2 p).
Proof. unfold DumpRegions. agree_with fail. Qed.

Lemma DumpPeFile_agree (m : Module) :
  agree (DumpPeFile q1 s1 m) (DumpPeFile q2 s2 m).
Proof.
  unfold DumpPeFile. cbv zeta. rewrite same_strings. agree_with fail.
Qed.

Lemma DumpModules_agree (p : ProcessEntry) :
  agree (DumpModules q1 s1 p) (DumpModules q2 s2 p).
Proof.
  unfold DumpModules, DumpModules_body.
  agree_with ltac:(apply DumpPeFile_agree).
Qed.

Lemma DumpProcessEntry_agree (memonly : bool) (p : ProcessEntry) :
  agree (DumpProcessEntry q1 s1 memonly p) (DumpProcessEntry q2 s2 memonly p).
Proof.
  unfold DumpProcessEntry.
  agree_with ltac:(first [ apply DumpThreads_agree
                         | apply DumpModules_agree
                         | apply DumpRegions_agree ]).
Qed.

(** X17.  The output stream does not steer the loops.  Two runs of
    [DumpProcesses] over the same processes, under any [--quiet] and
    [--strings] settings that agree on whether strings are dumped, make the
    same calls in the same order and end alike: both return or both throw
    the same exception.  So [--quiet] alone changes what is written and
    whether strings are dumped, nothing else. *)
Theorem output_does_not_steer_the_calls (memonly : bool)
  (processes : list ProcessEntry) (t1 t2 : State) :
  steps t1 = steps t2 ->
  same_calls (DumpProcesses q1 s1 memonly processes t1)
             (DumpProcesses q2 s2 memonly processes t2).
Proof.
  revert t1 t2. change (agree (DumpProcesses q1 s1 memonly processes)
                              (DumpProcesses q2 s2 memonly processes)).
  unfold DumpProcesses.
  agree_with ltac:(apply DumpProcessEntry_agree).
Qed.

End Agreement.

(** X17 on a quiet run with [--strings] against a loud run without, over a
    process whose second module fails in [DumpSections]: both make the same
    calls and both end with that exception. *)
Lemma output_does_not_steer_the_calls_witness :
  let processes :=
    [sample_entry 1 None
       [sample_module 0x400000 None None;
        sample_module 0x500000 (Some Sections) None];
     sample_entry 2 None []] in
  negb true && true = negb false && false /\
  same_calls (DumpProcesses true true false processes start)
             (DumpProcesses false false false processes start) /\
  wcout (final (DumpProcesses true true false processes start)) = [] /\
  wcout (final (DumpProcesses false false false processes start)) <> [].
Proof.
  split; [reflexivity |]. split.
  - exact (@output_does_not_steer_the_calls true true false false eq_refl
             false
             [sample_entry 1 None
                [sample_module 0x400000 None None;
                 sample_module 0x500000 (Some Sections) None];
              sample_entry 2 None []] start start eq_refl).
  - split; [reflexivity | discriminate].
Defined.

End DumpMore.

(** * Facts about the handling of strings *)

Module TextFacts.

Import Text.

Lemma prefix_refl (a : string) : String.prefix a a = true.
Proof.
  induction a as [| c a IH]; [reflexivity |].
  cbn. destruct (Ascii.ascii_dec c c); [exact IH | congruence].
Qed.







Lemma erase_in_range (index : nat) (value : string) (s : State) :
  (index <= String.length value)%nat ->
  erase index value s = Returned (substring 0 index value) s.
Proof.
  intros Hrange. unfold erase. apply Nat.leb_le in Hrange.
  rewrite Hrange. reflexivity.
Qed.

Section WithFinder.

Variable find : string -> option nat.

Ltac run_handler :=
  unfold HandleLongOrUnprintableString, WriteNormal, WriteNamedNormal,
         WarnForCurrentFile, write;
  unfold_monad.





(** X21.  A warning is recorded for the file exactly when the finder
    reports something or the value is longer than 1024 characters, once,
    whether or not the cut then succeeds, and also under [--quiet], where
    nothing is written. *)
Theorem warning_is_recorded_also_when_quiet (g_quiet : bool)
  (name description : string) (tabs : Z) (warning_type : WarningType)
  (value : string) (s : State) :
  let o := HandleLongOrUnprintableString g_quiet find name description tabs
             warning_type value s in
  warnings (final o) =
    warnings s ++
    (match find value with
     | Some _ => [warning_type]
     | None =>
         if (kMaxNameLength <? String.length value)%nat
         then [warning_type] else []
     end) /\
  (g_quiet = true -> wcout (final o) = wcout s).
Proof.
  cbv zeta. run_handler.
  destruct (find value) as [index |].
  - unfold erase. unfold_monad.
    destruct (index <=? String.length value)%nat; cbn [final wcout warnings];
      (split; [reflexivity | intros ->; reflexivity]).
  - destruct (kMaxNameLength <? String.length value)%nat eqn:Hlong.
    + apply Nat.ltb_lt in Hlong.
      rewrite erase_in_range by lia. cbn [final wcout warnings].
      split; [reflexivity | intros ->; reflexivity].
    + cbn [final wcout warnings]. rewrite app_nil_r.
      split; [reflexivity | intros ->; reflexivity].
Qed.

End WithFinder.




End TextFacts.
